(** * A Last-Writer-Wins element set and graph (LWWElementGraph.h)

    Shallow embedding of the two class templates of [LWWElementGraph.h]
    and proofs of their documented properties.

    - [std::unordered_map<K, V>] is a [gmap K V].  Its [operator==] is
      embedded as the comparison it performs and shown to decide
      equality of the maps.
    - The key type [E] is any countable type.  The timestamp type [T]
      is instantiated with the integers, as in [main.cpp]
      ([LWWElementGraph<int, int>]): the code only compares timestamps
      and takes [std::max] of them, so no arithmetic can wrap around.
    - [std::unordered_map::at] throws [std::out_of_range] on a missing
      key.  Operations that call it live in the [result] monad.
    - A range-[for] over an [unordered_map] visits its entries in an
      unspecified order.  The loops of [Merge] and of
      [AllConnectedVertices] are defined along given enumerations and
      shown not to depend on them; [AnyPath], whose answer does depend on
      the order, takes it as a parameter.
    - The loops of [AnyPath] are defined with fuel; [AnyPath] is given
      fuel that is shown to suffice. *)

From stdpp Require Import gmap list fin_maps.

Local Open Scope Z_scope.

(** ** Exceptions *)

Inductive exn : Set := out_of_range.

Inductive result (A : Type) : Type :=
  | Ok (a : A)
  | Throw (e : exn).
Arguments Ok {A} a.
Arguments Throw {A} e.

Definition ret {A : Type} (a : A) : result A := Ok a.

Definition bind {A B : Type} (m : result A) (f : A → result B) : result B :=
  match m with
  | Ok a => f a
  | Throw e => Throw e
  end.

Notation "'let!' x ':=' m 'in' k" := (bind m (λ x, k))
  (at level 10, x name, m at level 100, k at level 200, only parsing).

(** [a || b] and [a && b] evaluate [b] only when [a] does not decide. *)
Definition orelse (a b : result bool) : result bool :=
  let! x := a in if x then ret true else b.
Definition andalso (a b : result bool) : result bool :=
  let! x := a in if x then b else ret false.
Definition not_ (a : result bool) : result bool := let! x := a in ret (negb x).

Fixpoint foldlM {A B : Type} (f : B → A → result B) (b : B) (l : list A) : result B :=
  match l with
  | [] => ret b
  | x :: l' => let! b' := f b x in foldlM f b' l'
  end.

(** ** The parts of the standard library the classes use *)

(** [std::max(a, b)] is [(a < b) ? b : a]. *)
Definition std_max (a b : Z) : Z := if a <? b then b else a.

Section unordered_map.
Context {K : Type} `{Countable K} {V : Type}.

(** [m.find(k) != m.end()] *)
Definition found (m : gmap K V) (k : K) : bool :=
  match m !! k with Some _ => true | None => false end.

(** [m.at(k)] *)
Definition map_at (m : gmap K V) (k : K) : result V :=
  match m !! k with Some v => Ok v | None => Throw out_of_range end.

(** [m[k]] read as a value: a missing entry is value-initialised first. *)
Definition subscript (d : V) (m : gmap K V) (k : K) : V := default d (m !! k).

(** [m[k]] as the map it leaves behind. *)
Definition touch (d : V) (m : gmap K V) (k : K) : gmap K V :=
  match m !! k with Some _ => m | None => <[k := d]> m end.

(** [operator==] of two maps: same number of entries, and every entry
    of the left map is found in the right one with an equal value. *)
Definition unordered_map_eqb (veqb : V → V → bool) (m1 m2 : gmap K V) : bool :=
  bool_decide (size m1 = size m2) &&
  forallb (λ '(k, v), match m2 !! k with Some v' => veqb v v' | None => false end)
          (map_to_list m1).
End unordered_map.

(** ** [template<class E, class T> class LWWElementSet] *)

Module LWWElementSet.
Section defs.
Context {E : Type} `{Countable E}.

Record t : Type := mk { add : gmap E Z; remove : gmap E Z }.

(** A default-constructed set. *)
Definition empty : t := mk ∅ ∅.

Definition AddExist (s : t) (e : E) : bool := found (add s) e.

Definition Add (s : t) (e : E) (ts : Z) : t :=
  if AddExist s e
  then mk (<[e := std_max (subscript 0 (add s) e) ts]> (add s)) (remove s)
  else mk (<[e := ts]> (add s)) (remove s).

Definition RemoveExist (s : t) (e : E) : bool := found (remove s) e.

Definition Remove (s : t) (e : E) (ts : Z) : t :=
  if RemoveExist s e
  then mk (add s) (<[e := std_max (subscript 0 (remove s) e) ts]> (remove s))
  else mk (add s) (<[e := ts]> (remove s)).

Definition AddTimestamp (s : t) (e : E) : result Z := map_at (add s) e.

Definition GetAdd (s : t) : gmap E Z := add s.

Definition RemoveTimestamp (s : t) (e : E) : result Z := map_at (remove s) e.

Definition Contains (s : t) (e : E) : result bool :=
  if negb (AddExist s e) then ret false
  else if negb (RemoveExist s e) then ret true
  else let! a := AddTimestamp s e in let! r := RemoveTimestamp s e in ret (a >? r).

(** The two loops of [Merge], along given enumerations of the other
    set's maps. *)
Definition Merge_along (la lr : list (E * Z)) (s : t) : t :=
  foldl (λ s '(e, ts), Remove s e ts)
        (foldl (λ s '(e, ts), Add s e ts) s la) lr.

Definition Merge (s o : t) : t :=
  Merge_along (map_to_list (add o)) (map_to_list (remove o)) s.

(** [s.Merge(s)]: the argument is the object itself, so each loop visits
    the very map it updates.  [Add] (resp. [Remove]) finds the visited
    element and assigns to its entry; no entry is inserted, the
    enumeration stays as it was when the loop began, and each timestamp
    is the one stored when its entry is reached. *)
Definition Merge_self (s : t) : t :=
  let s1 := foldl (λ s e, Add s e (subscript 0 (add s) e)) s (map_to_list (add s)).*1 in
  foldl (λ s e, Remove s e (subscript 0 (remove s) e)) s1 (map_to_list (remove s1)).*1.

(** [operator==] *)
Definition eqb (s1 s2 : t) : bool :=
  unordered_map_eqb Z.eqb (add s1) (add s2) &&
  unordered_map_eqb Z.eqb (remove s1) (remove s2).
End defs.
Arguments t E {_ _}.
End LWWElementSet.

(** ** [template<class E, class T> class LWWElementGraph] *)

Module LWWElementGraph.
Import LWWElementSet.
Section defs.
Context {E : Type} `{Countable E}.

Record t : Type := mk {
  vertices : LWWElementSet.t E;
  edges : gmap E (LWWElementSet.t E)
}.

(** A default-constructed graph. *)
Definition empty : t := mk LWWElementSet.empty ∅.

Definition AddVertex (g : t) (e : E) (ts : Z) : t :=
  mk (Add (vertices g) e ts) (edges g).

Definition RemoveVertex (g : t) (e : E) (ts : Z) : t :=
  mk (Remove (vertices g) e ts) (edges g).

Definition ContainsVertex (g : t) (e : E) : result bool :=
  Contains (vertices g) e.

(** [edges[from].Add(to, t)]: the edge set of [from] is created empty
    when it is missing. *)
Definition AddEdge (g : t) (from to : E) (ts : Z) : t :=
  mk (vertices g)
     (<[from := Add (subscript LWWElementSet.empty (edges g) from) to ts]> (edges g)).

Definition RemoveEdge (g : t) (from to : E) (ts : Z) : t :=
  mk (vertices g)
     (<[from := Remove (subscript LWWElementSet.empty (edges g) from) to ts]> (edges g)).

Definition ContainsEdge (g : t) (from to : E) : result bool :=
  (* If there is no edge with the given vertices *)
  let! c1 := orelse (ret (negb (found (edges g) from)))
                    (not_ (let! s := map_at (edges g) from in Contains s to)) in
  if c1 then ret false else
  (* Or one of the vertices is not alive *)
  let! c2 := orelse (not_ (ContainsVertex g from)) (not_ (ContainsVertex g to)) in
  if c2 then ret false else
  let! s := map_at (edges g) from in
  let! addTimestamp := AddTimestamp s to in
  (* If some vertex was deleted - delete all edges connected to it *)
  let! c3 :=
    orelse
      (andalso (ret (RemoveExist (vertices g) from))
               (let! r := RemoveTimestamp (vertices g) from in ret (addTimestamp <=? r)))
      (andalso (ret (RemoveExist (vertices g) to))
               (let! r := RemoveTimestamp (vertices g) to in ret (addTimestamp <=? r))) in
  if c3 then ret false else
  (* The edges must be added after or at the same time as the vertices *)
  let! c4 :=
    orelse (let! a := AddTimestamp (vertices g) from in ret (addTimestamp <? a))
           (let! a := AddTimestamp (vertices g) to in ret (addTimestamp <? a)) in
  if c4 then ret false else ret true.

(** The loop of [Merge] over the other graph's edge sets, along a
    given enumeration of them. *)
Definition Merge_edges (le : list (E * LWWElementSet.t E))
    (es : gmap E (LWWElementSet.t E)) : gmap E (LWWElementSet.t E) :=
  foldl (λ es '(from, edge),
           <[from := LWWElementSet.Merge (subscript LWWElementSet.empty es from) edge]> es)
        es le.

Definition Merge (g o : t) : t :=
  mk (LWWElementSet.Merge (vertices g) (vertices o))
     (Merge_edges (map_to_list (edges o)) (edges g)).

(** [g.Merge(g)]: the vertex set is merged with itself, and so is every
    edge set, [edges[from]] and [edge] being one object. *)
Definition Merge_self (g : t) : t :=
  mk (LWWElementSet.Merge_self (vertices g))
     (foldl (λ es from,
               <[from := LWWElementSet.Merge_self (subscript LWWElementSet.empty es from)]> es)
            (edges g) (map_to_list (edges g)).*1).

(** [E0] is [E()], the value-initialised key that [previous[e]] would
    insert for a missing [e] in [AnyPath].

    [visit e m] is the order in which a range-[for] over the add map [m]
    of the edge set of [e] visits its entries.  The order of an
    [unordered_map] is unspecified: the properties are proved for every
    enumeration of the map. *)
Variable E0 : E.
Variable visit : E → gmap E Z → list (E * Z).

(** The loops of [AllConnectedVertices], the outer one along a given
    enumeration of the edge sets. *)
Definition AllConnectedVertices_along (le : list (E * LWWElementSet.t E))
    (g : t) (e : E) : result (gset E) :=
  foldlM
    (λ res '(from, edge),
       if decide (from = e) then
         foldlM (λ res '(to, _),
                   let! c := ContainsEdge g from to in
                   ret (if c then {[to]} ∪ res else res))
                res (visit from (GetAdd edge))
       else
         foldlM (λ res '(to, _),
                   let! c := andalso (ret (bool_decide (to = e))) (ContainsEdge g from to) in
                   ret (if c then {[from]} ∪ res else res))
                res (visit from (GetAdd edge)))
    ∅ le.

(** *** [AnyPath] *)

(** One round of the [for] loop over the outgoing edges of [e]. *)
Definition expand (g : t) (e : E) (st : list E * gmap E E) (next : E * Z)
    : result (list E * gmap E E) :=
  let '(queue, previous) := st in
  let! c := andalso (ret (negb (found previous next.1))) (ContainsEdge g e next.1) in
  if c then ret (queue ++ [next.1], <[next.1 := e]> previous) else ret st.

(** [for(; e != from; e = previous[e]) path.push_back(e);
     path.push_back(e);]  [None] when the fuel runs out. *)
Fixpoint walk_back (fuel : nat) (from e : E) (previous : gmap E E) (path : list E)
    : option (list E) :=
  match fuel with
  | O => None
  | S n =>
      if decide (e = from) then Some (path ++ [e])
      else walk_back n from (subscript E0 previous e) (touch E0 previous e) (path ++ [e])
  end.

(** The [while (!queue.empty())] loop.  [None] when the fuel runs out. *)
Fixpoint bfs (fuel : nat) (g : t) (from to : E) (queue : list E) (previous : gmap E E)
    : option (result (list E)) :=
  match fuel with
  | O => None
  | S n =>
      match queue with
      | [] => Some (Ok [])
      | e :: queue' =>
          if decide (e = to) then
            path ← walk_back (S (size previous)) from e previous [];
            Some (Ok (rev path))
          else
            match (let! s := map_at (edges g) e in
                   foldlM (expand g e) (queue', previous) (visit e (GetAdd s))) with
            | Throw x => Some (Throw x)
            | Ok (queue'', previous') => bfs n g from to queue'' previous'
            end
      end
  end.

Definition AnyPath_fuel (fuel : nat) (g : t) (from to : E) : option (result (list E)) :=
  match orelse (not_ (ContainsVertex g from)) (not_ (ContainsVertex g to)) with
  | Throw x => Some (Throw x)
  | Ok true => Some (Ok [])
  | Ok false => bfs fuel g from to [from] (<[from := from]> ∅)
  end.

(** Every key that some edge set records as a destination. *)
Definition targets (g : t) : gset E :=
  ⋃ ((λ s, dom (GetAdd s)) <$> (map_to_list (edges g)).*2).

(** [AnyPath]: the loop dequeues a key at most once, and only [from] and
    destinations are ever enqueued, so this fuel is never used up
    (see [AnyPath_returns]). *)
Definition AnyPath (g : t) (from to : E) : option (result (list E)) :=
  AnyPath_fuel (S (S (size (targets g)))) g from to.

(** [operator==] *)
Definition eqb (g1 g2 : t) : bool :=
  LWWElementSet.eqb (vertices g1) (vertices g2) &&
  unordered_map_eqb LWWElementSet.eqb (edges g1) (edges g2).
End defs.
Arguments t E {_ _}.

(** The enumeration of a map that [map_to_list] gives. *)
Definition in_map_order {E : Type} `{Countable E} : E → gmap E Z → list (E * Z) :=
  λ _, map_to_list.

Definition AllConnectedVertices {E : Type} `{Countable E} (g : t E) (e : E)
    : result (gset E) :=
  AllConnectedVertices_along in_map_order (map_to_list (edges g)) g e.
End LWWElementGraph.

(** ** Notions used to state the properties *)

(** Inserting [v] under [k], combining it with [f] into the value
    already stored there.  Both [Add]/[Remove] (with [std::max]) and the
    loop body of the graph's [Merge] (with the set's [Merge]) are of
    this form. *)
Section upsert.
Context {K : Type} `{Countable K} {V : Type} (f : V → V → V).

Definition ojoin (a b : option V) : option V :=
  union_with (λ x y, Some (f x y)) a b.

Definition upsert (k : K) (v : V) (m : gmap K V) : gmap K V :=
  <[k := match m !! k with Some a => f a v | None => v end]> m.

(** The join of all values listed under [k]. *)
Definition collect (k : K) (l : list (K * V)) : option V :=
  foldr (λ '(k', v) acc, if decide (k' = k) then ojoin (Some v) acc else acc) None l.

(** Pointwise join of two maps. *)
Definition map_join (m1 m2 : gmap K V) : gmap K V :=
  union_with (λ x y, Some (f x y)) m1 m2.
End upsert.

(** The greatest element of a list of timestamps. *)
Definition max_of (l : list Z) : option Z :=
  foldr (λ x acc, ojoin Z.max (Some x) acc) None l.

Definition is_max (m : Z) (l : list Z) : Prop :=
  m ∈ l ∧ Forall (λ x, x ≤ m) l.

(** The derived state of the specification: an element is present iff
    it has an add-timestamp and either no remove-timestamp or an
    add-timestamp that strictly exceeds it. *)
Definition present {E : Type} `{Countable E} (s : LWWElementSet.t E) (e : E) : bool :=
  match LWWElementSet.add s !! e, LWWElementSet.remove s !! e with
  | None, _ => false
  | Some _, None => true
  | Some a, Some r => bool_decide (r < a)
  end.

(** Histories of a set: the operations that mutate it, applied to a set
    that is created empty. *)
Module History.
Import LWWElementSet.
Section defs.
Context {E : Type} `{Countable E}.

Inductive op : Type :=
  | OpAdd (e : E) (ts : Z)
  | OpRemove (e : E) (ts : Z)
  | OpMerge (o : LWWElementSet.t E).

Definition apply (s : LWWElementSet.t E) (o : op) : LWWElementSet.t E :=
  match o with
  | OpAdd e ts => Add s e ts
  | OpRemove e ts => Remove s e ts
  | OpMerge o => Merge s o
  end.

Definition run (ops : list op) : LWWElementSet.t E := foldl apply empty ops.

(** The add-timestamp an operation applies to [e], directly or by
    merging a set that records one. *)
Definition added (e : E) (o : op) : option Z :=
  match o with
  | OpAdd e' ts => if decide (e' = e) then Some ts else None
  | OpRemove _ _ => None
  | OpMerge o => add o !! e
  end.

Definition removed (e : E) (o : op) : option Z :=
  match o with
  | OpAdd _ _ => None
  | OpRemove e' ts => if decide (e' = e) then Some ts else None
  | OpMerge o => remove o !! e
  end.

Definition adds_applied (e : E) (ops : list op) : list Z := omap (added e) ops.
Definition removes_applied (e : E) (ops : list op) : list Z := omap (removed e) ops.
End defs.
Arguments op E {_ _}.
End History.

(** A removal at [r] dominates an edge added at [te]. *)
Definition dominated (te : Z) (r : option Z) : bool :=
  match r with Some r => bool_decide (te ≤ r) | None => false end.

(** An edge added at [te] is not before a vertex added at [a]. *)
Definition not_before (te : Z) (a : option Z) : bool :=
  match a with Some a => bool_decide (a ≤ te) | None => false end.

(** The edge validity predicate of the specification: an edge is
    visible iff (1) its source has an edge set in which the destination
    is present, (2) both endpoints are present vertices, (3) no endpoint
    has a remove-timestamp at or after the edge's add-timestamp, and
    (4) the edge's add-timestamp is not before either endpoint's. *)
Definition edge_valid {E : Type} `{Countable E}
    (g : LWWElementGraph.t E) (from to : E) : bool :=
  let v := LWWElementGraph.vertices g in
  match LWWElementGraph.edges g !! from with
  | None => false
  | Some s =>
      match LWWElementSet.add s !! to with
      | None => false
      | Some te =>
          present s to
          && (present v from && present v to)
          && (negb (dominated te (LWWElementSet.remove v !! from))
              && negb (dominated te (LWWElementSet.remove v !! to)))
          && (not_before te (LWWElementSet.add v !! from)
              && not_before te (LWWElementSet.add v !! to))
      end
  end.

(** Paths of valid edges, listed with both ends. *)
Inductive path {E : Type} `{Countable E} (g : LWWElementGraph.t E) : E → E → list E → Prop :=
  | path_end v : path g v v [v]
  | path_edge u v w p :
      LWWElementGraph.ContainsEdge g u v = Ok true →
      path g v w p → path g u w (u :: p).

(** What [previous] records during the search: from a key, the
    predecessors lead back to [from] along valid edges. *)
Inductive trail {E : Type} `{Countable E} (g : LWWElementGraph.t E)
    (previous : gmap E E) (from : E) : E → list E → Prop :=
  | trail_root : trail g previous from from [from]
  | trail_step v u l :
      v ≠ from → previous !! v = Some u →
      LWWElementGraph.ContainsEdge g u v = Ok true →
      trail g previous from u l → trail g previous from v (v :: l).

(** The invariant of the search loop: [from] is its own predecessor,
    every queued key has a predecessor, every key with a predecessor has a
    trail no longer than [previous] has entries, and only [from] and
    destinations are recorded. *)
Definition search_inv {E : Type} `{Countable E} (g : LWWElementGraph.t E) (from : E)
    (queue : list E) (previous : gmap E E) : Prop :=
  previous !! from = Some from
  ∧ (∀ v, v ∈ queue → is_Some (previous !! v))
  ∧ (∀ v, is_Some (previous !! v) →
          ∃ l, trail g previous from v l ∧ (length l ≤ size previous)%nat)
  ∧ dom previous ⊆ LWWElementGraph.targets g ∪ {[from]}.

(** [v] lies [d] edges deep in the search tree. *)
Definition depth {E : Type} `{Countable E} (g : LWWElementGraph.t E)
    (previous : gmap E E) (from v : E) (d : nat) : Prop :=
  ∃ l, trail g previous from v l ∧ length l = S d.

(** Every valid edge out of [v] leads to a key with a predecessor. *)
Definition closed {E : Type} `{Countable E} (g : LWWElementGraph.t E)
    (previous : gmap E E) (v : E) : Prop :=
  ∀ w, LWWElementGraph.ContainsEdge g v w = Ok true → is_Some (previous !! w).

(** The queue holds keys of one depth followed by keys one edge deeper. *)
Definition layered {E : Type} `{Countable E} (g : LWWElementGraph.t E)
    (previous : gmap E E) (from : E) (queue : list E) : Prop :=
  ∃ q1 q2 d0,
    queue = q1 ++ q2
    ∧ Forall (λ v, depth g previous from v d0) q1
    ∧ Forall (λ v, depth g previous from v (S d0)) q2.

(** The invariant that makes the search breadth-first: depths are
    distances, and a key that left the queue is not [to] and has had all
    its valid edges followed. *)
Definition bfs_inv {E : Type} `{Countable E} (g : LWWElementGraph.t E) (from to : E)
    (queue : list E) (previous : gmap E E) : Prop :=
  search_inv g from queue previous
  ∧ layered g previous from queue
  ∧ (∀ v d p, depth g previous from v d → path g from v p → (S d ≤ length p)%nat)
  ∧ (∀ v, is_Some (previous !! v) → v ∈ queue ∨ (closed g previous v ∧ v ≠ to)).

(** Histories of a graph: the operations that mutate it. *)
Module GraphHistory.
Import LWWElementGraph.
Section defs.
Context {E : Type} `{Countable E}.

Inductive op : Type :=
  | OpAddVertex (e : E) (ts : Z)
  | OpRemoveVertex (e : E) (ts : Z)
  | OpAddEdge (from to : E) (ts : Z)
  | OpRemoveEdge (from to : E) (ts : Z)
  | OpMerge (o : LWWElementGraph.t E).

Definition apply (g : LWWElementGraph.t E) (o : op) : LWWElementGraph.t E :=
  match o with
  | OpAddVertex e ts => AddVertex g e ts
  | OpRemoveVertex e ts => RemoveVertex g e ts
  | OpAddEdge from to ts => AddEdge g from to ts
  | OpRemoveEdge from to ts => RemoveEdge g from to ts
  | OpMerge o => Merge g o
  end.

Definition run (ops : list op) : LWWElementGraph.t E := foldl apply empty ops.
End defs.
Arguments op E {_ _}.
End GraphHistory.

(** ** Sample graphs, after [main.cpp] *)

Module Tests.
Import LWWElementGraph.

(** Two vertices and no edge. *)
Definition two_vertices : LWWElementGraph.t Z :=
  AddVertex (AddVertex empty 0 0) 1 0.

(** Edges 0→1, 0→2 and 2→3 over four vertices: only 0 and 2 have an
    edge set. *)
Definition fork : LWWElementGraph.t Z :=
  AddEdge (AddEdge (AddEdge
    (AddVertex (AddVertex (AddVertex (AddVertex empty 0 0) 1 1) 2 2) 3 3)
    0 1 4) 0 2 5) 2 3 6.

(** The graph of [TestAnyPath]. *)
Definition diamond : LWWElementGraph.t Z :=
  AddEdge (AddEdge (AddEdge (AddEdge
    (AddVertex (AddVertex (AddVertex (AddVertex empty 0 0) 1 1) 2 2) 3 3)
    0 1 4) 0 2 5) 1 3 6) 2 3 7.

(** [AddEdge(0, 1, 0)] before its vertices, which are added at the
    same time (from [TestPrecedence]). *)
Definition simultaneous : LWWElementGraph.t Z :=
  AddVertex (AddVertex (AddEdge empty 0 1 0) 0 0) 1 0.

(** Vertex 1 is removed at 3 and added again at 5; the edge 0→1 dates
    from 2. *)
Definition readded : LWWElementGraph.t Z :=
  AddEdge (RemoveVertex (AddVertex (AddVertex empty 0 0) 1 5) 1 3) 0 1 2.

(** The two loops of the large path test of [TestAnyPath], for any
    number of vertices: [AddVertex(i, time++)] for the first [k] keys, and
    [AddEdge(i, i + 1, time++)] for the first [k] keys when the clock
    started the loop at [n]. *)
Definition chain_vertices (k : nat) : LWWElementGraph.t Z :=
  foldl (λ g (i : nat), AddVertex g (Z.of_nat i) (Z.of_nat i)) empty (seq 0 k).

Definition chain_edges (n k : nat) (g : LWWElementGraph.t Z) : LWWElementGraph.t Z :=
  foldl (λ g (i : nat), AddEdge g (Z.of_nat i) (Z.of_nat i + 1) (Z.of_nat n + Z.of_nat i))
    g (seq 0 k).

(** The graph of that test with [n] vertices. *)
Definition chain (n : nat) : LWWElementGraph.t Z :=
  chain_edges n (n - 1) (chain_vertices n).
End Tests.

(** * Properties *)

(** ** The [result] monad and the standard library *)

Lemma std_max_max a b : std_max a b = Z.max a b.
Proof. unfold std_max. destruct (Z.ltb_spec a b); lia. Qed.

Section unordered_map_facts.
Context {K : Type} `{Countable K} {V : Type}.
Implicit Types m : gmap K V.

Lemma found_true m k : found m k = true ↔ is_Some (m !! k).
Proof.
  unfold found. destruct (m !! k); split; intros Hs; try done.
Qed.

Lemma found_false m k : found m k = false ↔ m !! k = None.
Proof. unfold found. by destruct (m !! k). Qed.

Lemma map_at_Ok m k v : map_at m k = Ok v ↔ m !! k = Some v.
Proof. unfold map_at. destruct (m !! k); split; congruence. Qed.

Lemma map_at_Throw m k x : map_at m k = Throw x ↔ m !! k = None.
Proof. unfold map_at. destruct (m !! k), x; split; congruence. Qed.

(** [operator==] on maps decides equality, when the comparison of
    values does. *)
Lemma unordered_map_eqb_eq (veqb : V → V → bool) m1 m2 :
  (∀ x y, veqb x y = true ↔ x = y) →
  unordered_map_eqb veqb m1 m2 = true ↔ m1 = m2.
Proof.
  intros Hv. unfold unordered_map_eqb.
  rewrite andb_true_iff, bool_decide_eq_true, forallb_forall. split.
  - intros [Hsz Hall]. apply map_subseteq_size_eq; [|lia].
    apply map_subseteq_spec. intros k v Hk.
    specialize (Hall (k, v)). simpl in Hall.
    destruct (m2 !! k) as [v'|] eqn:Hk2.
    + f_equal. symmetry. apply Hv, Hall.
      apply list_elem_of_In. by apply elem_of_map_to_list.
    + discriminate Hall.
      apply list_elem_of_In. by apply elem_of_map_to_list.
  - intros ->. split; [done|].
    intros [k v] Hin%list_elem_of_In%elem_of_map_to_list.
    rewrite Hin. by apply Hv.
Qed.
End unordered_map_facts.

(** ** Folding insertions that combine *)

Section upsert_facts.
Context {K : Type} `{Countable K} {V : Type} (f : V → V → V).
Context `{!Assoc (=) f}.
Implicit Types m : gmap K V.

Lemma ojoin_assoc (a b c : option V) :
  ojoin f a (ojoin f b c) = ojoin f (ojoin f a b) c.
Proof. destruct a, b, c; simpl; try done. unfold ojoin; simpl. by rewrite (assoc f). Qed.

Lemma ojoin_None_r (a : option V) : ojoin f a None = a.
Proof. by destruct a. Qed.

Lemma ojoin_None_l (a : option V) : ojoin f None a = a.
Proof. by destruct a. Qed.

Lemma lookup_upsert k v m k' :
  upsert f k v m !! k' = if decide (k = k') then ojoin f (m !! k) (Some v) else m !! k'.
Proof.
  unfold upsert. rewrite lookup_insert. case_decide; [|done].
  by destruct (m !! k).
Qed.

Lemma lookup_foldl_upsert (l : list (K * V)) m k :
  foldl (λ m '(k, v), upsert f k v m) m l !! k = ojoin f (m !! k) (collect f k l).
Proof.
  revert m. induction l as [|[k' v] l IH]; intros m; simpl.
  - by rewrite ojoin_None_r.
  - rewrite IH, lookup_upsert. case_decide as Hk; [|done].
    subst k'. symmetry. exact (ojoin_assoc (m !! k) (Some v) (collect f k l)).
Qed.

Lemma collect_notin k (l : list (K * V)) : k ∉ l.*1 → collect f k l = None.
Proof.
  induction l as [|[k' v] l IH]; simpl; [done|].
  rewrite not_elem_of_cons. intros [Hne Hl].
  rewrite decide_False by done. by apply IH.
Qed.

Lemma collect_NoDup k (l : list (K * V)) :
  NoDup l.*1 → collect f k l = (list_to_map l : gmap K V) !! k.
Proof.
  induction l as [|[k' v] l IH]; simpl; [done|].
  rewrite NoDup_cons. intros [Hnin Hnd].
  rewrite lookup_insert. case_decide as Hk.
  - subst k'. by rewrite collect_notin.
  - by apply IH.
Qed.

(** An enumeration of a map, in any order, lists under [k] exactly
    the value stored under [k]. *)
Lemma collect_map_to_list k (l : list (K * V)) m :
  l ≡ₚ map_to_list m → collect f k l = m !! k.
Proof.
  intros Hl. rewrite collect_NoDup.
  - symmetry in Hl. by rewrite <-(list_to_map_flip m l Hl).
  - rewrite Hl. apply NoDup_fst_map_to_list.
Qed.

Lemma foldl_upsert_map_join (l : list (K * V)) m1 m2 :
  l ≡ₚ map_to_list m2 →
  foldl (λ m '(k, v), upsert f k v m) m1 l = map_join f m1 m2.
Proof.
  intros Hl. apply map_eq. intros k. unfold map_join.
  by rewrite lookup_foldl_upsert, lookup_union_with, (collect_map_to_list k l m2).
Qed.

Lemma map_join_assoc m1 m2 m3 :
  map_join f m1 (map_join f m2 m3) = map_join f (map_join f m1 m2) m3.
Proof.
  apply map_eq. intros k. unfold map_join. rewrite !lookup_union_with.
  apply ojoin_assoc.
Qed.

Lemma map_join_comm `{!Comm (=) f} m1 m2 : map_join f m1 m2 = map_join f m2 m1.
Proof. apply union_with_comm. intros. f_equal. apply (comm f). Qed.

Lemma map_join_idemp `{!IdemP (=) f} m : map_join f m m = m.
Proof. apply union_with_idemp. intros. f_equal. apply (idemp f). Qed.

Lemma map_join_empty_l m : map_join f ∅ m = m.
Proof.
  apply map_eq. intros k. unfold map_join.
  rewrite lookup_union_with, lookup_empty. by destruct (m !! k).
Qed.
End upsert_facts.

(** ** The set *)

#[local] Instance Zmax_assoc : Assoc (=) Z.max.
Proof. intros x y z. lia. Qed.
#[local] Instance Zmax_comm : Comm (=) Z.max.
Proof. intros x y. lia. Qed.
#[local] Instance Zmax_idemp : IdemP (=) Z.max.
Proof. intros x. lia. Qed.

Section set_facts.
Import LWWElementSet.
Context {E : Type} `{Countable E}.
Implicit Types s o : LWWElementSet.t E.

Lemma AddExist_true s e : AddExist s e = true ↔ is_Some (add s !! e).
Proof. apply found_true. Qed.

Lemma Add_upsert s e ts : Add s e ts = mk (upsert Z.max e ts (add s)) (remove s).
Proof.
  unfold Add, AddExist, found, upsert, subscript.
  destruct (add s !! e); simpl; [|done]. by rewrite std_max_max.
Qed.

Lemma Remove_upsert s e ts : Remove s e ts = mk (add s) (upsert Z.max e ts (remove s)).
Proof.
  unfold Remove, RemoveExist, found, upsert, subscript.
  destruct (remove s !! e); simpl; [|done]. by rewrite std_max_max.
Qed.

Lemma foldl_Add (l : list (E * Z)) s :
  foldl (λ s '(e, ts), Add s e ts) s l =
  mk (foldl (λ m '(e, ts), upsert Z.max e ts m) (add s) l) (remove s).
Proof.
  revert s. induction l as [|[e ts] l IH]; intros s; simpl.
  - by destruct s.
  - by rewrite IH, Add_upsert.
Qed.

Lemma foldl_Remove (l : list (E * Z)) s :
  foldl (λ s '(e, ts), Remove s e ts) s l =
  mk (add s) (foldl (λ m '(e, ts), upsert Z.max e ts m) (remove s) l).
Proof.
  revert s. induction l as [|[e ts] l IH]; intros s; simpl.
  - by destruct s.
  - by rewrite IH, Remove_upsert.
Qed.

(** Whatever the order in which the two loops of [Merge] visit the
    other set's maps, they compute the pointwise maximum. *)
Lemma Merge_along_join (la lr : list (E * Z)) s o :
  la ≡ₚ map_to_list (add o) → lr ≡ₚ map_to_list (remove o) →
  Merge_along la lr s =
  mk (map_join Z.max (add s) (add o)) (map_join Z.max (remove s) (remove o)).
Proof.
  intros Ha Hr. unfold Merge_along. rewrite foldl_Add, foldl_Remove. simpl.
  by rewrite (foldl_upsert_map_join Z.max la _ (add o)),
             (foldl_upsert_map_join Z.max lr _ (remove o)).
Qed.

Lemma Merge_join s o :
  Merge s o = mk (map_join Z.max (add s) (add o)) (map_join Z.max (remove s) (remove o)).
Proof. by apply Merge_along_join. Qed.

Lemma set_Merge_idemp s : Merge s s = s.
Proof. rewrite Merge_join, !map_join_idemp by apply _. by destruct s. Qed.

Lemma Add_stored s e : is_Some (add s !! e) → Add s e (subscript 0 (add s) e) = s.
Proof.
  intros [a Ha]. rewrite Add_upsert. unfold upsert, subscript. rewrite Ha. simpl.
  rewrite Z.max_id, insert_id by done. by destruct s.
Qed.

Lemma Remove_stored s e :
  is_Some (remove s !! e) → Remove s e (subscript 0 (remove s) e) = s.
Proof.
  intros [a Ha]. rewrite Remove_upsert. unfold upsert, subscript. rewrite Ha. simpl.
  rewrite Z.max_id, insert_id by done. by destruct s.
Qed.

Lemma foldl_fixpoint {A B : Type} (f : B → A → B) (b : B) (l : list A) :
  Forall (λ x, f b x = b) l → foldl f b l = b.
Proof. induction 1 as [|x l Hx Hl IH]; simpl; [done|]. by rewrite Hx. Qed.

Lemma keys_is_Some {V : Type} (m : gmap E V) :
  Forall (λ k, is_Some (m !! k)) (map_to_list m).*1.
Proof.
  apply Forall_forall. intros k [[k' v] [-> Hin]]%list_elem_of_fmap.
  apply elem_of_map_to_list in Hin. by eexists.
Qed.

Lemma set_Merge_self s : Merge_self s = s.
Proof.
  unfold Merge_self.
  rewrite (foldl_fixpoint _ s).
  - apply foldl_fixpoint. eapply Forall_impl; [apply keys_is_Some|].
    intros e. apply Remove_stored.
  - eapply Forall_impl; [apply keys_is_Some|]. intros e. apply Add_stored.
Qed.

Lemma set_Merge_comm s o : Merge s o = Merge o s.
Proof.
  rewrite !Merge_join.
  by rewrite (map_join_comm Z.max (add s)), (map_join_comm Z.max (remove s)).
Qed.

Lemma set_Merge_assoc s1 s2 s3 : Merge s1 (Merge s2 s3) = Merge (Merge s1 s2) s3.
Proof. rewrite !Merge_join. simpl. by rewrite !map_join_assoc by apply _. Qed.

Lemma set_Merge_empty_l s : Merge empty s = s.
Proof. rewrite Merge_join. simpl. rewrite !map_join_empty_l. by destruct s. Qed.

Lemma set_eqb_eq s1 s2 : LWWElementSet.eqb s1 s2 = true ↔ s1 = s2.
Proof.
  unfold LWWElementSet.eqb.
  rewrite andb_true_iff, !(unordered_map_eqb_eq Z.eqb) by apply Z.eqb_eq.
  destruct s1, s2; simpl. split; [intros [-> ->]; done | by intros [= -> ->]].
Qed.

(** [Contains] never throws: it computes the derived state. *)
Lemma Contains_present s e : Contains s e = Ok (present s e).
Proof.
  unfold Contains, present, AddExist, RemoveExist, AddTimestamp, RemoveTimestamp,
    found, map_at.
  destruct (add s !! e) as [a|]; simpl; [|done].
  destruct (remove s !! e) as [r|]; simpl; [|done].
  unfold ret. f_equal. destruct (Z.gtb_spec a r); symmetry.
  - apply bool_decide_eq_true. lia.
  - apply bool_decide_eq_false. lia.
Qed.

Lemma lookup_add_Merge s o e :
  add (Merge s o) !! e = ojoin Z.max (add s !! e) (add o !! e).
Proof. rewrite Merge_join. simpl. apply lookup_union_with. Qed.

Lemma lookup_remove_Merge s o e :
  remove (Merge s o) !! e = ojoin Z.max (remove s !! e) (remove o !! e).
Proof. rewrite Merge_join. simpl. apply lookup_union_with. Qed.
End set_facts.

(** ** Histories of a set *)

Lemma max_of_None (l : list Z) : max_of l = None ↔ l = [].
Proof.
  destruct l as [|x l]; simpl; [done|].
  split; [|done]. by destruct (max_of l).
Qed.

Lemma max_of_is_max (l : list Z) (m : Z) : max_of l = Some m ↔ is_max m l.
Proof.
  unfold is_max. revert m. induction l as [|x l IH]; intros m; simpl.
  - split; [done|]. intros [Hin _]. by apply elem_of_nil in Hin.
  - rewrite elem_of_cons, Forall_cons.
    destruct (max_of l) as [y|] eqn:Hl; simpl.
    + destruct (IH y) as [[Hy Hall] _]; [done|].
      split.
      * intros [= <-]. split_and!; [|lia|].
        -- destruct (Z.max_spec x y) as [[_ ->]|[_ ->]]; auto.
        -- eapply Forall_impl; [exact Hall|]. simpl. intros; lia.
      * intros [[->|Hin] [Hx Hall']]; f_equal.
        -- rewrite Forall_forall in Hall'. specialize (Hall' _ Hy). lia.
        -- rewrite Forall_forall in Hall. specialize (Hall _ Hin).
           rewrite Forall_forall in Hall'. specialize (Hall' _ Hy). lia.
    + apply max_of_None in Hl. subst l. split.
      * intros [= <-]. split_and!; [by left|lia|done].
      * intros [[->|Hin] _]; [done|]. by apply elem_of_nil in Hin.
Qed.

Section history_facts.
Import LWWElementSet History.
Context {E : Type} `{Countable E}.
Implicit Types (s o : LWWElementSet.t E) (ops : list (op E)).

Lemma lookup_add_apply s (x : op E) e :
  add (apply s x) !! e = ojoin Z.max (add s !! e) (added e x).
Proof.
  destruct x as [e' ts|e' ts|o]; simpl.
  - rewrite Add_upsert. simpl. rewrite lookup_upsert by apply _.
    case_decide; [by subst|]. by rewrite ojoin_None_r.
  - rewrite Remove_upsert. simpl. by rewrite ojoin_None_r.
  - apply lookup_add_Merge.
Qed.

Lemma lookup_remove_apply s (x : op E) e :
  remove (apply s x) !! e = ojoin Z.max (remove s !! e) (removed e x).
Proof.
  destruct x as [e' ts|e' ts|o]; simpl.
  - rewrite Add_upsert. simpl. by rewrite ojoin_None_r.
  - rewrite Remove_upsert. simpl. rewrite lookup_upsert by apply _.
    case_decide; [by subst|]. by rewrite ojoin_None_r.
  - apply lookup_remove_Merge.
Qed.

Lemma max_of_omap_cons {A : Type} (f : A → option Z) (x : A) (l : list A) :
  max_of (omap f (x :: l)) = ojoin Z.max (f x) (max_of (omap f l)).
Proof. simpl. destruct (f x); [done|]. symmetry. apply ojoin_None_l. Qed.

Lemma lookup_add_foldl_apply ops s e :
  add (foldl apply s ops) !! e = ojoin Z.max (add s !! e) (max_of (adds_applied e ops)).
Proof.
  unfold adds_applied. revert s. induction ops as [|x ops IH]; intros s.
  - simpl. by rewrite ojoin_None_r.
  - rewrite max_of_omap_cons. simpl foldl.
    rewrite IH, lookup_add_apply. symmetry. apply ojoin_assoc, _.
Qed.

Lemma lookup_remove_foldl_apply ops s e :
  remove (foldl apply s ops) !! e =
  ojoin Z.max (remove s !! e) (max_of (removes_applied e ops)).
Proof.
  unfold removes_applied. revert s. induction ops as [|x ops IH]; intros s.
  - simpl. by rewrite ojoin_None_r.
  - rewrite max_of_omap_cons. simpl foldl.
    rewrite IH, lookup_remove_apply. symmetry. apply ojoin_assoc, _.
Qed.

Lemma lookup_add_run ops e : add (run ops) !! e = max_of (adds_applied e ops).
Proof.
  unfold run. rewrite lookup_add_foldl_apply. simpl.
  by rewrite lookup_empty, ojoin_None_l.
Qed.

Lemma lookup_remove_run ops e : remove (run ops) !! e = max_of (removes_applied e ops).
Proof.
  unfold run. rewrite lookup_remove_foldl_apply. simpl.
  by rewrite lookup_empty, ojoin_None_l.
Qed.
End history_facts.

(** ** What the set guarantees *)

Section set_properties.
Import LWWElementSet History.
Context {E : Type} `{Countable E}.
Implicit Types (s o : LWWElementSet.t E) (ops : list (op E)).

(** C2.  [Contains(e)] is [false] when [e] has no add-timestamp,
    [true] when it has one and no remove-timestamp, and otherwise
    [true] iff the add-timestamp strictly exceeds the remove-timestamp.
    At equal timestamps the element is absent: remove wins.  In
    particular [Add(e, t)] then [Remove(e, t)] on a set that is created
    empty, and more generally on every set that records no add of [e]
    later than [t], leaves [Contains(e)] false. *)
Theorem Contains_remove_wins s e :
  Contains s e =
    Ok (match add s !! e with
        | None => false
        | Some a =>
            match remove s !! e with
            | None => true
            | Some r => bool_decide (a > r)
            end
        end)
  ∧ (∀ ts, add s !! e = Some ts → remove s !! e = Some ts → Contains s e = Ok false)
  ∧ (∀ ts, Contains (Remove (Add empty e ts) e ts) e = Ok false)
  ∧ (∀ ts, (∀ a, add s !! e = Some a → a ≤ ts) →
           Contains (Remove (Add s e ts) e ts) e = Ok false).
Proof.
  assert (Hgen : ∀ s' ts, (∀ a, add s' !! e = Some a → a ≤ ts) →
                   Contains (Remove (Add s' e ts) e ts) e = Ok false).
  { intros s' ts Hle. rewrite Contains_present. f_equal. unfold present.
    rewrite Remove_upsert, Add_upsert. simpl.
    rewrite !lookup_upsert, !decide_True by done.
    destruct (add s' !! e) as [a|] eqn:Ha, (remove s' !! e) as [r|]; simpl;
      apply bool_decide_eq_false; try specialize (Hle _ eq_refl); lia. }
  split_and!.
  - rewrite Contains_present. f_equal. unfold present.
    destruct (add s !! e) as [a|]; [|done].
    destruct (remove s !! e) as [r|]; [|done].
    apply bool_decide_ext. lia.
  - intros ts Ha Hr. rewrite Contains_present. f_equal. unfold present.
    rewrite Ha, Hr. apply bool_decide_eq_false. lia.
  - intros ts. apply Hgen. intros a. simpl. by rewrite lookup_empty.
  - apply Hgen.
Qed.

(** C7.  After any sequence of [Add], [Remove] and [Merge] applied to a
    set that is created empty, the timestamp stored for an element in
    the add map is the maximum of all add-timestamps ever applied for
    it, directly or through a merged set; symmetrically for the remove
    map.  [Merge] computes the pointwise maximum of the two add maps and
    of the two remove maps. *)
Theorem stored_timestamp_is_maximum ops e :
  (∀ m, add (run ops) !! e = Some m ↔ is_max m (adds_applied e ops))
  ∧ (∀ m, remove (run ops) !! e = Some m ↔ is_max m (removes_applied e ops))
  ∧ (∀ s o,
       add (Merge s o) = union_with (λ a b, Some (Z.max a b)) (add s) (add o)
       ∧ remove (Merge s o) = union_with (λ a b, Some (Z.max a b)) (remove s) (remove o)).
Proof.
  split_and!.
  - intros m. rewrite lookup_add_run. apply max_of_is_max.
  - intros m. rewrite lookup_remove_run. apply max_of_is_max.
  - intros s o. by rewrite Merge_join.
Qed.

(** C8.  [AddTimestamp(e)] throws exactly when [e] was never added,
    and returns the stored timestamp when [AddExist(e)] holds; likewise
    for [RemoveTimestamp(e)] and [RemoveExist(e)].  No other operation
    of the set is partial: [Contains], the only other one that reads
    through [at], always returns. *)
Theorem Timestamp_not_found s e :
  (AddTimestamp s e = Throw out_of_range ↔ AddExist s e = false)
  ∧ (AddExist s e = true → ∃ ts, add s !! e = Some ts ∧ AddTimestamp s e = Ok ts)
  ∧ (RemoveTimestamp s e = Throw out_of_range ↔ RemoveExist s e = false)
  ∧ (RemoveExist s e = true →
       ∃ ts, remove s !! e = Some ts ∧ RemoveTimestamp s e = Ok ts)
  ∧ (∀ ops, AddTimestamp (run ops) e = Throw out_of_range ↔ adds_applied e ops = [])
  ∧ (∀ ops, RemoveTimestamp (run ops) e = Throw out_of_range ↔
            removes_applied e ops = [])
  ∧ (∃ b, Contains s e = Ok b).
Proof.
  unfold AddTimestamp, RemoveTimestamp, AddExist, RemoveExist.
  split_and!.
  - by rewrite map_at_Throw, found_false.
  - intros [ts Hts]%found_true. exists ts. by rewrite map_at_Ok.
  - by rewrite map_at_Throw, found_false.
  - intros [ts Hts]%found_true. exists ts. by rewrite map_at_Ok.
  - intros ops. by rewrite map_at_Throw, lookup_add_run, max_of_None.
  - intros ops. by rewrite map_at_Throw, lookup_remove_run, max_of_None.
  - eexists. apply Contains_present.
Qed.
End set_properties.

Lemma Contains_remove_wins_witness :
  (∀ a : Z, LWWElementSet.add (LWWElementSet.Add LWWElementSet.empty 0 3) !! 0 = Some a →
            a ≤ 5)
  ∧ LWWElementSet.Contains
      (LWWElementSet.Remove
         (LWWElementSet.Add (LWWElementSet.Add LWWElementSet.empty 0 3) 0 5) 0 5) 0
    = Ok false.
Proof.
  assert (Hle : ∀ a : Z,
            LWWElementSet.add (LWWElementSet.Add LWWElementSet.empty 0 3) !! 0 = Some a →
            a ≤ 5).
  { intros a Ha. vm_compute in Ha. injection Ha as <-. lia. }
  split; [exact Hle|].
  exact (proj2 (proj2 (proj2
           (Contains_remove_wins (LWWElementSet.Add LWWElementSet.empty 0 3) 0))) 5 Hle).
Defined.

Lemma Timestamp_not_found_witness :
  LWWElementSet.AddExist (LWWElementSet.Add LWWElementSet.empty 0 5) 0 = true
  ∧ ∃ ts : Z,
      LWWElementSet.add (LWWElementSet.Add LWWElementSet.empty 0 5) !! 0 = Some ts
      ∧ LWWElementSet.AddTimestamp (LWWElementSet.Add LWWElementSet.empty 0 5) 0 = Ok ts.
Proof.
  split; [reflexivity|].
  apply (proj1 (proj2 (Timestamp_not_found (LWWElementSet.Add LWWElementSet.empty 0 5) 0))).
  reflexivity.
Defined.

(** ** The graph *)

Section graph_facts.
Import LWWElementSet LWWElementGraph.
Context {E : Type} `{Countable E}.
Implicit Types (g o : LWWElementGraph.t E) (s : LWWElementSet.t E).

#[local] Instance set_Merge_Assoc : Assoc (=) (LWWElementSet.Merge (E:=E)).
Proof. intros ???. apply set_Merge_assoc. Qed.
#[local] Instance set_Merge_Comm : Comm (=) (LWWElementSet.Merge (E:=E)).
Proof. intros ??. apply set_Merge_comm. Qed.
#[local] Instance set_Merge_IdemP : IdemP (=) (LWWElementSet.Merge (E:=E)).
Proof. intros ?. apply set_Merge_idemp. Qed.

(** [ContainsEdge] never throws: it computes the validity predicate. *)
Lemma ContainsEdge_edge_valid g from to :
  ContainsEdge g from to = Ok (edge_valid g from to).
Proof.
  unfold ContainsEdge, edge_valid, ContainsVertex.
  rewrite !Contains_present.
  unfold AddTimestamp, RemoveTimestamp, RemoveExist, found, map_at.
  destruct (edges g !! from) as [s|]; simpl; [|done].
  rewrite Contains_present. simpl.
  unfold present, dominated, not_before, orelse.
  destruct (add s !! to) as [te|], (remove s !! to) as [re|]; simpl; try done;
    destruct (add (vertices g) !! from) as [af|],
             (remove (vertices g) !! from) as [rf|]; simpl;
    destruct (add (vertices g) !! to) as [at'|],
             (remove (vertices g) !! to) as [rt|]; simpl;
    repeat (case_bool_decide; simpl); try done;
    repeat match goal with
      | |- context [(?a <=? ?b)] => destruct (Z.leb_spec a b); simpl
      | |- context [(?a <? ?b)] => destruct (Z.ltb_spec a b); simpl
      end; try done; lia.
Qed.

Lemma Merge_edges_upsert (le : list (E * LWWElementSet.t E)) es :
  Merge_edges le es = foldl (λ m '(k, v), upsert LWWElementSet.Merge k v m) es le.
Proof.
  unfold Merge_edges. revert es. induction le as [|[from edge] le IH]; intros es; simpl.
  - done.
  - rewrite IH. f_equal. unfold upsert, subscript.
    destruct (es !! from); simpl; [done|]. by rewrite set_Merge_empty_l.
Qed.

(** Whatever the order in which the loop of [Merge] visits the other
    graph's edge sets, it joins the edge sets source by source. *)
Lemma Merge_edges_join (le : list (E * LWWElementSet.t E)) es eo :
  le ≡ₚ map_to_list eo → Merge_edges le es = map_join LWWElementSet.Merge es eo.
Proof.
  intros Hle. rewrite Merge_edges_upsert. by apply foldl_upsert_map_join; [apply _|].
Qed.

Lemma graph_Merge_join g o :
  Merge g o = LWWElementGraph.mk (LWWElementSet.Merge (vertices g) (vertices o))
                (map_join LWWElementSet.Merge (edges g) (edges o)).
Proof. unfold Merge. by rewrite (Merge_edges_join _ _ (edges o)). Qed.

Lemma graph_Merge_idemp g : Merge g g = g.
Proof.
  rewrite graph_Merge_join, set_Merge_idemp, map_join_idemp by apply _.
  by destruct g.
Qed.

Lemma graph_Merge_self g : Merge_self g = g.
Proof.
  unfold Merge_self. rewrite set_Merge_self, foldl_fixpoint; [by destruct g|].
  eapply Forall_impl; [apply keys_is_Some|].
  intros from [s Hs]. simpl. unfold subscript. rewrite Hs. simpl.
  rewrite set_Merge_self. by apply insert_id.
Qed.

Lemma graph_Merge_comm g o : Merge g o = Merge o g.
Proof.
  rewrite !graph_Merge_join.
  by rewrite (set_Merge_comm (vertices g)),
             (map_join_comm LWWElementSet.Merge (edges g)).
Qed.

Lemma graph_Merge_assoc g1 g2 g3 : Merge (Merge g1 g2) g3 = Merge g1 (Merge g2 g3).
Proof.
  rewrite !graph_Merge_join. simpl.
  by rewrite set_Merge_assoc, map_join_assoc by apply _.
Qed.

Lemma graph_eqb_eq g1 g2 : LWWElementGraph.eqb g1 g2 = true ↔ g1 = g2.
Proof.
  unfold LWWElementGraph.eqb.
  rewrite andb_true_iff, set_eqb_eq,
    (unordered_map_eqb_eq LWWElementSet.eqb) by apply set_eqb_eq.
  destruct g1, g2; simpl. split; [intros [-> ->]; done | by intros [= -> ->]].
Qed.
End graph_facts.

(** ** The queries *)

Section queries.
Import LWWElementSet LWWElementGraph.
Context {E : Type} `{Countable E} (E0 : E).
Context (visit : E → gmap E Z → list (E * Z)).
Hypothesis visit_enumerates : ∀ e (m : gmap E Z), visit e m ≡ₚ map_to_list m.
Implicit Types (g : LWWElementGraph.t E) (s : LWWElementSet.t E).

(** A loop that only adds to a set adds the union of what each round
    adds. *)
Lemma foldlM_union {A : Type} (F : A → gset E) (f : gset E → A → result (gset E))
    (l : list A) (b : gset E) :
  (∀ b x, f b x = Ok (F x ∪ b)) → foldlM f b l = Ok (⋃ (F <$> l) ∪ b).
Proof.
  intros Hf. revert b. induction l as [|x l IH]; intros b; simpl.
  - by rewrite (left_id_L ∅ (∪)).
  - rewrite Hf. simpl. rewrite IH. f_equal.
    by rewrite (assoc_L (∪)), (comm_L (∪) (F x)).
Qed.

(** [AllConnectedVertices(e)] only walks over edge sets that exist, so
    it returns.  In whatever order it visits the edge sets and their
    entries, it returns the keys joined to [e] by a valid edge, in either
    direction. *)
Lemma AllConnectedVertices_along_spec (le : list (E * LWWElementSet.t E)) g e :
  le ≡ₚ map_to_list (edges g) →
  ∃ r, AllConnectedVertices_along visit le g e = Ok r
       ∧ ∀ x, x ∈ r ↔ ContainsEdge g e x = Ok true ∨ ContainsEdge g x e = Ok true.
Proof.
  intros Hle.
  pose (F1 := λ x : E * Z, if edge_valid g e x.1 then ({[x.1]} : gset E) else ∅).
  pose (F2 := λ (from : E) (x : E * Z),
          if bool_decide (x.1 = e) && edge_valid g from x.1
          then ({[from]} : gset E) else ∅).
  pose (F := λ x : E * LWWElementSet.t E,
          if decide (x.1 = e) then ⋃ (F1 <$> visit x.1 (GetAdd x.2))
          else ⋃ (F2 x.1 <$> visit x.1 (GetAdd x.2))).
  eexists. split.
  { unfold AllConnectedVertices_along. apply (foldlM_union F).
    intros res [from edge]. unfold F. simpl. case_decide as Hfrom.
    - subst from. apply (foldlM_union F1). intros res' [to ts].
      rewrite ContainsEdge_edge_valid. unfold F1. simpl.
      destruct (edge_valid g e to); [done|]. by rewrite (left_id_L ∅ (∪)).
    - apply (foldlM_union (F2 from)). intros res' [to ts].
      rewrite ContainsEdge_edge_valid. unfold F2. simpl.
      case_bool_decide; simpl; [|by rewrite (left_id_L ∅ (∪))].
      destruct (edge_valid g from to); [done|]. by rewrite (left_id_L ∅ (∪)). }
  intros x. rewrite !ContainsEdge_edge_valid, (right_id_L ∅ (∪)), elem_of_union_list.
  split.
  - intros (X & HX & Hx). apply list_elem_of_fmap in HX as ([from edge] & -> & Hin).
    unfold F in Hx. simpl in Hx. case_decide as Hfrom.
    + subst from. apply elem_of_union_list in Hx as (X & HX & Hx).
      apply list_elem_of_fmap in HX as ([to ts] & -> & _).
      unfold F1 in Hx. simpl in Hx. destruct (edge_valid g e to) eqn:Hv.
      * apply elem_of_singleton in Hx as ->. left. by rewrite Hv.
      * by apply elem_of_empty in Hx.
    + apply elem_of_union_list in Hx as (X & HX & Hx).
      apply list_elem_of_fmap in HX as ([to ts] & -> & _).
      unfold F2 in Hx. simpl in Hx.
      destruct (bool_decide (to = e) && edge_valid g from to) eqn:Hv.
      * apply elem_of_singleton in Hx as ->.
        apply andb_true_iff in Hv as [->%bool_decide_eq_true Hv]. right. by rewrite Hv.
      * by apply elem_of_empty in Hx.
  - assert (Hadj : ∀ u w, edge_valid g u w = true →
               ∃ s ts, (u, s) ∈ le ∧ (w, ts) ∈ visit u (GetAdd s)).
    { intros u w. unfold edge_valid.
      destruct (edges g !! u) as [s|] eqn:Hs; [|done].
      destruct (add s !! w) as [ts|] eqn:Hw; [|done]. intros _.
      exists s, ts. by rewrite Hle, visit_enumerates, !elem_of_map_to_list. }
    destruct (decide (x = e)) as [->|Hne].
    { intros Hv. assert (Hv' : edge_valid g e e = true) by (destruct Hv; congruence).
      destruct (Hadj _ _ Hv') as (s & ts & Hs & Hts).
      exists (F (e, s)). split; [apply list_elem_of_fmap; by eexists|].
      unfold F. simpl. rewrite decide_True by done.
      apply elem_of_union_list. exists (F1 (e, ts)).
      split; [apply list_elem_of_fmap; by eexists|].
      unfold F1. simpl. rewrite Hv'. by apply elem_of_singleton. }
    intros [[= Hv]|[= Hv]]; destruct (Hadj _ _ Hv) as (s & ts & Hs & Hts).
    + exists (F (e, s)). split; [apply list_elem_of_fmap; by eexists|].
      unfold F. simpl. rewrite decide_True by done.
      apply elem_of_union_list. exists (F1 (x, ts)).
      split; [apply list_elem_of_fmap; by eexists|].
      unfold F1. simpl. rewrite Hv. by apply elem_of_singleton.
    + exists (F (x, s)). split; [apply list_elem_of_fmap; by eexists|].
      unfold F. simpl. rewrite decide_False by done.
      apply elem_of_union_list. exists (F2 x (e, ts)).
      split; [apply list_elem_of_fmap; by eexists|].
      unfold F2. simpl. rewrite bool_decide_eq_true_2, Hv by done.
      by apply elem_of_singleton.
Qed.

(** A search between vertices that are not in the graph stops before
    the loop. *)
Lemma AnyPath_fuel_absent g from to fuel :
  ContainsVertex g from = Ok false ∨ ContainsVertex g to = Ok false →
  AnyPath_fuel E0 visit fuel g from to = Some (Ok []).
Proof.
  unfold AnyPath_fuel, ContainsVertex. rewrite !Contains_present.
  intros [[= ->]|[= ->]]; simpl; [done|].
  by destruct (present (vertices g) from).
Qed.

(** The path from a vertex of the graph to itself. *)
Lemma AnyPath_fuel_self g v fuel :
  ContainsVertex g v = Ok true →
  AnyPath_fuel E0 visit (S fuel) g v v = Some (Ok [v]).
Proof.
  unfold AnyPath_fuel, ContainsVertex. rewrite !Contains_present.
  intros [= ->]. simpl. by rewrite !decide_True.
Qed.

(** The first vertex the loop expands is [from].  When [from] has no
    edge set, [edges.at(from)] throws. *)
Lemma AnyPath_fuel_no_edge_set g from to fuel :
  from ≠ to →
  ContainsVertex g from = Ok true → ContainsVertex g to = Ok true →
  edges g !! from = None →
  AnyPath_fuel E0 visit (S fuel) g from to = Some (Throw out_of_range).
Proof.
  unfold AnyPath_fuel, ContainsVertex. rewrite !Contains_present.
  intros Hne [= ->] [= ->] Hnone. simpl.
  rewrite decide_False by done. unfold map_at. by rewrite Hnone.
Qed.

Lemma elem_of_targets g v :
  v ∈ targets g ↔ ∃ k s, edges g !! k = Some s ∧ is_Some (add s !! v).
Proof.
  unfold targets. rewrite elem_of_union_list. split.
  - intros (X & HX & Hv). apply list_elem_of_fmap in HX as (s & -> & Hs).
    apply list_elem_of_fmap in Hs as ([k s'] & -> & Hin).
    apply elem_of_map_to_list in Hin.
    exists k, s'. split; [done|]. by apply elem_of_dom.
  - intros (k & s & Hk & Hv). exists (dom (GetAdd s)). split.
    + apply list_elem_of_fmap. exists s. split; [done|].
      apply list_elem_of_fmap. exists (k, s). split; [done|].
      by apply elem_of_map_to_list.
    + by apply elem_of_dom.
Qed.

Lemma trail_insert g from previous next e v l :
  previous !! next = None →
  trail g previous from v l → trail g (<[next := e]> previous) from v l.
Proof.
  intros Hn. induction 1 as [|v u l Hne Hp Hedge Ht IH]; econstructor; eauto.
  rewrite lookup_insert_ne; [done|]. intros ->. congruence.
Qed.

(** Walking back along a trail collects it. *)
Lemma walk_back_trail g from previous v l fuel acc :
  trail g previous from v l → (length l ≤ fuel)%nat →
  walk_back E0 fuel from v previous acc = Some (acc ++ l).
Proof.
  intros Ht. revert fuel acc.
  induction Ht as [|v u l Hne Hp Hedge Ht IH]; intros fuel acc Hlen.
  - destruct fuel; simpl in *; [lia|]. by rewrite decide_True.
  - destruct fuel; simpl in *; [lia|]. rewrite decide_False by done.
    unfold subscript, touch. rewrite Hp. simpl. rewrite IH by lia.
    by rewrite <-app_assoc.
Qed.

Lemma path_snoc g u v w p :
  path g u v p → ContainsEdge g v w = Ok true → path g u w (p ++ [w]).
Proof.
  induction 1; intros Hedge; simpl.
  - econstructor; [done|]. constructor.
  - econstructor; eauto.
Qed.

Lemma trail_path g from previous v l :
  trail g previous from v l → path g from v (rev l).
Proof.
  induction 1; simpl; [constructor|]. by eapply path_snoc.
Qed.

(** One round of the inner loop keeps the invariant, and enqueues a key
    exactly when it records a predecessor for it. *)
Lemma expand_inv g from e queue previous (next : E * Z) :
  search_inv g from queue previous → is_Some (previous !! e) →
  next.1 ∈ targets g →
  ∃ queue' previous',
    expand g e (queue, previous) next = Ok (queue', previous')
    ∧ search_inv g from queue' previous' ∧ is_Some (previous' !! e)
    ∧ (length queue' + size previous = length queue + size previous')%nat.
Proof.
  intros (Hfrom & Hq & Htr & Hdom) He Hnext.
  unfold expand. rewrite ContainsEdge_edge_valid. unfold found.
  destruct (previous !! next.1) as [u|] eqn:Hp; simpl.
  { exists queue, previous. by split_and!. }
  destruct (edge_valid g e next.1) eqn:Hv; simpl.
  2: { exists queue, previous. by split_and!. }
  assert (Hne : next.1 ≠ from) by (intros Heq; congruence).
  exists (queue ++ [next.1]), (<[next.1 := e]> previous). split_and!.
  - done.
  - unfold search_inv. split_and!.
    + by rewrite lookup_insert_ne.
    + intros v [Hv'| ->%list_elem_of_singleton]%elem_of_app.
      * apply lookup_insert_is_Some'. right. by apply Hq.
      * rewrite lookup_insert_eq. by eexists.
    + intros v Hv'. rewrite map_size_insert_None by done.
      destruct (decide (v = next.1)) as [->|Hvn].
      * destruct (Htr e He) as (l & Hl & Hlen).
        exists (next.1 :: l). split; [|simpl; lia].
        econstructor; [done|apply lookup_insert_eq| |by apply trail_insert].
        by rewrite ContainsEdge_edge_valid, Hv.
      * rewrite lookup_insert_ne in Hv' by done.
        destruct (Htr v Hv') as (l & Hl & Hlen).
        exists l. split; [by apply trail_insert|lia].
    + rewrite dom_insert. apply union_subseteq. split; [|done].
      by apply singleton_subseteq_l, elem_of_union_l.
  - apply lookup_insert_is_Some'. by right.
  - rewrite length_app, map_size_insert_None by done. simpl. lia.
Qed.

Lemma foldlM_expand_inv g from e (l : list (E * Z)) queue previous :
  search_inv g from queue previous → is_Some (previous !! e) →
  Forall (λ x, x.1 ∈ targets g) l →
  ∃ queue' previous',
    foldlM (expand g e) (queue, previous) l = Ok (queue', previous')
    ∧ search_inv g from queue' previous'
    ∧ (length queue' + size previous = length queue + size previous')%nat.
Proof.
  intros Hinv He Hl. revert queue previous Hinv He.
  induction Hl as [|next l Hnext Hl IH]; intros queue previous Hinv He;
    cbn [foldlM].
  - exists queue, previous. by split_and!.
  - destruct (expand_inv g from e queue previous next Hinv He Hnext)
      as (q1 & p1 & -> & Hinv1 & He1 & Hsz1). cbn [bind].
    destruct (IH q1 p1 Hinv1 He1) as (q2 & p2 & -> & Hinv2 & Hsz2).
    exists q2, p2. split_and!; [done..|lia].
Qed.

(** With enough fuel the loop returns, and a sequence it returns is
    empty or a path of valid edges from [from] to [to]. *)
Lemma bfs_returns g from to fuel queue previous :
  search_inv g from queue previous →
  (size (targets g ∪ {[from]}) + length queue < fuel + size previous)%nat →
  ∃ r, bfs E0 visit fuel g from to queue previous = Some r
       ∧ ∀ p, r = Ok p → p = [] ∨ path g from to p.
Proof.
  revert queue previous.
  induction fuel as [|fuel IH]; intros queue previous Hinv Hfuel.
  { destruct Hinv as (_ & _ & _ & Hdom).
    apply subseteq_size in Hdom. rewrite size_dom in Hdom. lia. }
  destruct queue as [|e queue]; cbn [bfs].
  { eexists. split; [done|]. intros p [= <-]. by left. }
  assert (He : is_Some (previous !! e)).
  { destruct Hinv as (_ & Hq & _). apply Hq. by left. }
  case_decide as Hto.
  - subst e. destruct Hinv as (_ & _ & Htr & _).
    destruct (Htr to He) as (l & Hl & Hlen).
    rewrite (walk_back_trail g from previous to l) by (done || lia). simpl.
    eexists. split; [done|]. intros p [= <-]. right. by eapply trail_path.
  - unfold map_at. destruct (edges g !! e) as [s|] eqn:Hs; simpl.
    2: { eexists. split; [done|]. by intros p [=]. }
    assert (Hinv' : search_inv g from queue previous).
    { destruct Hinv as (Hf & Hq & Htr & Hdom).
      unfold search_inv. split_and!; [done| |done..].
      intros v Hv. apply Hq. by right. }
    destruct (foldlM_expand_inv g from e (visit e (GetAdd s)) queue previous)
      as (q' & p' & -> & Hinv'' & Hsz); [done..| |].
    { apply Forall_forall. intros [k ts] Hin.
      rewrite visit_enumerates in Hin. apply elem_of_map_to_list in Hin.
      apply elem_of_targets. exists e, s. split; [done|]. by eexists. }
    apply IH; [done|]. simpl in Hfuel. lia.
Qed.

(** [AnyPath] returns: the fuel it is given is never used up.  What it
    returns is an exception, the empty sequence, or a path of valid
    edges from [from] to [to]. *)
Lemma search_inv_init g from : search_inv g from [from] (<[from := from]> ∅).
Proof.
  unfold search_inv. split_and!.
  - apply lookup_insert_eq.
  - intros v ->%list_elem_of_singleton. rewrite lookup_insert_eq. by eexists.
  - intros v [<-|Hv]%lookup_insert_is_Some'.
    + exists [from]. split; [constructor|].
      rewrite map_size_insert_None by done. simpl. lia.
    + rewrite lookup_empty in Hv. by destruct Hv.
  - rewrite dom_insert, dom_empty. apply union_subseteq. split.
    + by apply singleton_subseteq_l, elem_of_union_r, elem_of_singleton.
    + apply empty_subseteq.
Qed.

Lemma AnyPath_returns g from to :
  ∃ r, AnyPath E0 visit g from to = Some r
       ∧ ∀ p, r = Ok p → p = [] ∨ path g from to p.
Proof.
  unfold AnyPath, AnyPath_fuel, ContainsVertex. rewrite !Contains_present.
  destruct (present (vertices g) from), (present (vertices g) to); cbn -[bfs];
    try (eexists; split; [done|]; intros p [= <-]; by left).
  apply bfs_returns; [apply search_inv_init|].
  rewrite map_size_insert_None, map_size_empty by done.
  pose proof (size_union_alt (targets g) {[from]}) as Hsz.
  assert (size (({[from]} : gset E) ∖ targets g) ≤ 1)%nat.
  { rewrite <-(size_singleton (C:=gset E) from).
    apply subseteq_size. intros x Hx. by apply elem_of_difference in Hx as [Hx _]. }
  simpl. lia.
Qed.

(** When every key that can be enqueued has an edge set, the loop does
    not throw. *)
Lemma bfs_no_throw g from to fuel queue previous r :
  (∀ v, v ∈ targets g ∪ {[from]} → is_Some (edges g !! v)) →
  search_inv g from queue previous →
  bfs E0 visit fuel g from to queue previous = Some r → ∃ p, r = Ok p.
Proof.
  intros Hsets. revert queue previous.
  induction fuel as [|fuel IH]; intros queue previous Hinv; [done|].
  destruct queue as [|e queue]; cbn [bfs].
  { intros [= <-]. by eexists. }
  assert (He : is_Some (previous !! e)).
  { destruct Hinv as (_ & Hq & _). apply Hq. by left. }
  case_decide as Hto.
  - destruct (walk_back _ _ _ _ _ _); simpl; [|done]. intros [= <-]. by eexists.
  - destruct (Hsets e) as [s Hs].
    { destruct Hinv as (_ & _ & _ & Hdom). by apply Hdom, elem_of_dom. }
    unfold map_at. rewrite Hs. cbn [bind].
    assert (Hinv' : search_inv g from queue previous).
    { destruct Hinv as (Hf & Hq & Htr & Hdom).
      unfold search_inv. split_and!; [done| |done..].
      intros v Hv. apply Hq. by right. }
    destruct (foldlM_expand_inv g from e (visit e (GetAdd s)) queue previous)
      as (q' & p' & -> & Hinv'' & Hsz); [done..| |].
    { apply Forall_forall. intros [k ts] Hin.
      rewrite visit_enumerates in Hin. apply elem_of_map_to_list in Hin.
      apply elem_of_targets. exists e, s. split; [done|]. by eexists. }
    by apply IH.
Qed.

(** *** The search is breadth-first *)

Lemma expand_cases g e queue previous (next : E * Z) :
  expand g e (queue, previous) next =
  Ok (if negb (found previous next.1) && edge_valid g e next.1
      then (queue ++ [next.1], <[next.1 := e]> previous)
      else (queue, previous)).
Proof.
  unfold expand. rewrite ContainsEdge_edge_valid.
  by destruct (found previous next.1), (edge_valid g e next.1).
Qed.

(** What the inner loop does to the queue and to [previous]. *)
Lemma foldlM_expand_spec g e (l : list (E * Z)) queue previous queue' previous' :
  foldlM (expand g e) (queue, previous) l = Ok (queue', previous') →
  ∃ news,
    queue' = queue ++ news
    ∧ (∀ v u, previous !! v = Some u → previous' !! v = Some u)
    ∧ (∀ n, n ∈ news →
            previous !! n = None ∧ previous' !! n = Some e
            ∧ ContainsEdge g e n = Ok true)
    ∧ (∀ v, is_Some (previous' !! v) → is_Some (previous !! v) ∨ v ∈ news)
    ∧ (∀ n, n ∈ l.*1 → ContainsEdge g e n = Ok true → is_Some (previous' !! n)).
Proof.
  revert queue previous.
  induction l as [|next l IH]; intros queue previous; cbn [foldlM].
  { intros [= <- <-]. exists []. rewrite app_nil_r. split_and!; try done.
    - intros n Hn. by apply elem_of_nil in Hn.
    - by left.
    - intros n Hn. by apply elem_of_nil in Hn. }
  rewrite expand_cases. cbn [bind].
  destruct (negb (found previous next.1) && edge_valid g e next.1) eqn:Hc.
  - apply andb_true_iff in Hc as [Hnf Hv].
    apply negb_true_iff, found_false in Hnf.
    intros (news & -> & Hext & Hnews & Hvis & Hadj)%IH.
    exists (next.1 :: news). rewrite <-app_assoc. split_and!; [done|..].
    + intros v u Hvu. apply Hext. rewrite lookup_insert_ne; [done|]. congruence.
    + intros n [->|Hn]%elem_of_cons.
      * split_and!; [done|apply Hext, lookup_insert_eq|].
        by rewrite ContainsEdge_edge_valid, Hv.
      * destruct (Hnews n Hn) as (Hnone & Hsome & Hedge).
        apply lookup_insert_None in Hnone as [Hnone _]. by split_and!.
    + intros v Hv'. destruct (Hvis v Hv') as [[Heq|Hs]%lookup_insert_is_Some'|Hn].
      * right. subst. by left.
      * by left.
      * right. by right.
    + intros n Hn Hedge. cbn [fmap list_fmap] in Hn.
      apply elem_of_cons in Hn as [->|Hn]; [|by apply Hadj].
      exists e. apply Hext, lookup_insert_eq.
  - intros (news & -> & Hext & Hnews & Hvis & Hadj)%IH.
    exists news. split_and!; try done.
    intros n Hn Hedge. cbn [fmap list_fmap] in Hn.
    apply elem_of_cons in Hn as [->|Hn]; [|by apply Hadj].
    rewrite ContainsEdge_edge_valid in Hedge. injection Hedge as Hedge.
    rewrite Hedge, andb_true_r in Hc. apply negb_false_iff, found_true in Hc.
    destruct Hc as [u Hu]. exists u. by apply Hext.
Qed.

(** A valid edge is listed in the edge set of its source. *)
Lemma ContainsEdge_adjacent g e s w :
  edges g !! e = Some s → ContainsEdge g e w = Ok true →
  w ∈ (visit e (GetAdd s)).*1.
Proof.
  intros Hs. rewrite ContainsEdge_edge_valid. unfold edge_valid. rewrite Hs.
  destruct (add s !! w) as [ts|] eqn:Hw; [|done]. intros _.
  apply list_elem_of_fmap. exists (w, ts). split; [done|].
  rewrite visit_enumerates. by apply elem_of_map_to_list.
Qed.

Lemma trail_unique g from previous v l1 l2 :
  trail g previous from v l1 → trail g previous from v l2 → l1 = l2.
Proof.
  intros Ht1. revert l2.
  induction Ht1 as [|v u l Hne Hp Hedge Ht IH]; intros l2 Ht2.
  - by inversion Ht2.
  - inversion Ht2 as [|v' u' l' Hne' Hp' Hedge' Ht']; subst; [done|].
    assert (u' = u) as -> by congruence. f_equal. by apply IH.
Qed.

Lemma trail_mono g from previous previous' v l :
  (∀ v u, previous !! v = Some u → previous' !! v = Some u) →
  trail g previous from v l → trail g previous' from v l.
Proof. intros Hext. induction 1; econstructor; eauto. Qed.

Lemma depth_unique g from previous v d1 d2 :
  depth g previous from v d1 → depth g previous from v d2 → d1 = d2.
Proof.
  intros (l1 & Ht1 & Hl1) (l2 & Ht2 & Hl2).
  rewrite (trail_unique _ _ _ _ _ _ Ht1 Ht2) in Hl1. lia.
Qed.

Lemma depth_mono g from previous previous' v d :
  (∀ v u, previous !! v = Some u → previous' !! v = Some u) →
  depth g previous from v d → depth g previous' from v d.
Proof. intros Hext (l & Ht & Hl). exists l. split; [by eapply trail_mono|done]. Qed.

Lemma trail_path_length g from previous v l :
  trail g previous from v l → (1 ≤ length l)%nat.
Proof. destruct 1; simpl; lia. Qed.

Lemma path_length g u v p : path g u v p → (1 ≤ length p)%nat.
Proof. destruct 1; simpl; lia. Qed.

(** A path ends with an edge, unless it has no edge at all. *)
Lemma path_inv_snoc g u w p :
  path g u w p →
  (u = w ∧ p = [u])
  ∨ ∃ v p', path g u v p' ∧ ContainsEdge g v w = Ok true ∧ p = p' ++ [w].
Proof.
  induction 1 as [v|u v w p Hedge Hp IH].
  - by left.
  - right. destruct IH as [[-> ->]|(v' & p' & Hp' & Hedge' & ->)].
    + exists u, [u]. split_and!; [constructor|done..].
    + exists v', (u :: p'). split_and!; [by econstructor|done..].
Qed.

Lemma layered_head_le g from previous e queue v de d :
  layered g previous from (e :: queue) →
  depth g previous from e de → v ∈ e :: queue → depth g previous from v d →
  (de ≤ d)%nat.
Proof.
  intros (q1 & q2 & d0 & Heq & H1 & H2) Hde Hv Hd.
  rewrite Forall_forall in H1. rewrite Forall_forall in H2.
  assert (He : e ∈ q1 ++ q2) by (rewrite <-Heq; by left).
  rewrite Heq in Hv. apply elem_of_app in Hv.
  destruct q1 as [|a q1].
  - simpl in He. destruct Hv as [Hv|Hv]; [by apply elem_of_nil in Hv|].
    rewrite (depth_unique _ _ _ _ _ _ Hde (H2 _ He)).
    by rewrite (depth_unique _ _ _ _ _ _ Hd (H2 _ Hv)).
  - injection Heq as <- _.
    rewrite (depth_unique _ _ _ _ _ _ Hde (H1 e ltac:(by left))).
    destruct Hv as [Hv|Hv].
    + by rewrite (depth_unique _ _ _ _ _ _ Hd (H1 _ Hv)).
    + rewrite (depth_unique _ _ _ _ _ _ Hd (H2 _ Hv)). lia.
Qed.

Lemma visited_depth g from queue previous v :
  search_inv g from queue previous → is_Some (previous !! v) →
  ∃ d, depth g previous from v d.
Proof.
  intros (_ & _ & Htr & _) Hv. destruct (Htr v Hv) as (l & Hl & _).
  pose proof (trail_path_length _ _ _ _ _ Hl).
  exists (pred (length l)). exists l. split; [done|lia].
Qed.

Lemma depth_visited g from queue previous v d :
  search_inv g from queue previous → depth g previous from v d →
  is_Some (previous !! v).
Proof.
  intros (Hfrom & _) (l & Hl & _). destruct Hl; by eexists.
Qed.

(** Every key within the depth of the head of the queue has a
    predecessor recorded. *)
Lemma near_visited g from to e queue previous de p x :
  bfs_inv g from to (e :: queue) previous →
  depth g previous from e de →
  path g from x p → (length p ≤ S de)%nat → is_Some (previous !! x).
Proof.
  intros (Hinv & Hlay & Hmin & Hclosed) Hde. revert x.
  induction p as [|a p IH] using rev_ind; intros x Hp Hlen.
  { apply path_length in Hp. simpl in Hp. lia. }
  apply path_inv_snoc in Hp as [[<- _]|(v & p' & Hp' & Hedge & Heq)].
  { destruct Hinv as (Hfrom & _). by eexists. }
  apply app_inj_tail in Heq as [-> ->].
  rewrite length_app in Hlen. simpl in Hlen.
  assert (Hv : is_Some (previous !! v)) by (apply IH; [done|lia]).
  destruct (visited_depth _ _ _ _ _ Hinv Hv) as [dv Hdv].
  pose proof (Hmin _ _ _ Hdv Hp') as Hle.
  destruct (Hclosed v Hv) as [Hq|[Hcl _]]; [|by apply Hcl].
  pose proof (layered_head_le _ _ _ _ _ _ _ _ Hlay Hde Hq Hdv). lia.
Qed.

(** Expanding the head of the queue keeps the invariant. *)
Lemma bfs_inv_step g from to e s queue previous queue' previous' :
  bfs_inv g from to (e :: queue) previous →
  e ≠ to → edges g !! e = Some s →
  foldlM (expand g e) (queue, previous) (visit e (GetAdd s)) = Ok (queue', previous') →
  bfs_inv g from to queue' previous'.
Proof.
  intros Hbfs Hto Hs Hfold.
  pose proof Hbfs as (Hinv & Hlay & Hmin & Hclosed).
  assert (He : is_Some (previous !! e)).
  { destruct Hinv as (_ & Hq & _). apply Hq. by left. }
  destruct (visited_depth _ _ _ _ _ Hinv He) as [de Hde].
  assert (Hinv' : search_inv g from queue' previous').
  { destruct (foldlM_expand_inv g from e (visit e (GetAdd s)) queue previous)
      as (q2 & p2 & Hfold' & Hinv2 & _).
    - destruct Hinv as (Hf & Hq & Htr & Hdom).
      unfold search_inv. split_and!; [done| |done..].
      intros v Hv. apply Hq. by right.
    - done.
    - apply Forall_forall. intros [k ts] Hin.
      rewrite visit_enumerates in Hin. apply elem_of_map_to_list in Hin.
      apply elem_of_targets. exists e, s. split; [done|]. by eexists.
    - rewrite Hfold in Hfold'. by injection Hfold' as -> ->. }
  apply foldlM_expand_spec in Hfold as (news & -> & Hext & Hnews & Hvis & Hadj).
  assert (Hold : ∀ v d, is_Some (previous !! v) →
                   depth g previous' from v d → depth g previous from v d).
  { intros v d Hv Hd. destruct (visited_depth _ _ _ _ _ Hinv Hv) as [d' Hd'].
    pose proof (depth_mono _ _ _ _ _ _ Hext Hd') as Hd''.
    by rewrite (depth_unique _ _ _ _ _ _ Hd Hd''). }
  assert (Hnew : ∀ n, n ∈ news → depth g previous' from n (S de)).
  { intros n (Hnone & Hsome & Hedge)%Hnews.
    destruct Hde as (l & Hl & Hlen). exists (n :: l). split; [|simpl; lia].
    econstructor; [|done..|by eapply trail_mono].
    destruct Hinv as (Hfrom & _). congruence. }
  unfold bfs_inv. split_and!; [done|..].
  - destruct Hlay as (q1 & q2 & d0 & Heq & H1 & H2).
    destruct q1 as [|a q1].
    + simpl in Heq. subst q2. apply Forall_cons in H2 as [He2 H2].
      rewrite (depth_unique _ _ _ _ _ _ Hde He2) in Hnew.
      exists queue, news, (S d0). split_and!; [done| |].
      * eapply Forall_impl; [exact H2|]. intros v. by apply depth_mono.
      * by apply Forall_forall.
    + injection Heq as <- ->. apply Forall_cons in H1 as [He1 H1].
      rewrite (depth_unique _ _ _ _ _ _ Hde He1) in Hnew.
      exists q1, (q2 ++ news), d0. split_and!; [by rewrite app_assoc| |].
      * eapply Forall_impl; [exact H1|]. intros v. by apply depth_mono.
      * apply Forall_app. split; [|by apply Forall_forall].
        eapply Forall_impl; [exact H2|]. intros v. by apply depth_mono.
  - intros v d p Hd Hp.
    destruct (Hvis v (depth_visited _ _ _ _ _ _ Hinv' Hd)) as [Hv|Hn].
    + eapply Hmin; [|done]. by apply Hold.
    + rewrite (depth_unique _ _ _ _ _ _ Hd (Hnew _ Hn)).
      destruct (decide (length p ≤ S de)%nat) as [Hle|]; [|lia].
      destruct (Hnews _ Hn) as (Hnone & _).
      destruct (near_visited _ _ _ _ _ _ _ _ _ Hbfs Hde Hp Hle) as [u Hu].
      congruence.
  - intros v [Hv|Hn]%Hvis; [|left; apply elem_of_app; by right].
    assert (Hmono : ∀ x, closed g previous x → closed g previous' x).
    { intros x Hx w [u Hu]%Hx. exists u. by apply Hext. }
    destruct (Hclosed v Hv) as [[->|Hq]%elem_of_cons|[Hcl Hne]].
    + right. split; [|done]. intros w Hedge.
      apply Hadj; [|done]. by eapply ContainsEdge_adjacent.
    + left. apply elem_of_app. by left.
    + right. split; [by apply Hmono|done].
Qed.

Lemma bfs_inv_init g from to : bfs_inv g from to [from] (<[from := from]> ∅).
Proof.
  assert (Hd0 : depth g (<[from := from]> ∅) from from 0).
  { exists [from]. split; [constructor|done]. }
  unfold bfs_inv. split_and!.
  - apply search_inv_init.
  - exists [from], [], 0%nat. split_and!; [done| |done]. by apply Forall_singleton.
  - intros v d p (l & Hl & Hlen) Hp.
    destruct Hl as [|v u l Hne Hprev _ _].
    + apply path_length in Hp. simpl in Hlen. lia.
    + rewrite lookup_insert_ne, lookup_empty in Hprev by done. done.
  - intros v [<-|Hv]%lookup_insert_is_Some'.
    + left. by left.
    + rewrite lookup_empty in Hv. by destruct Hv.
Qed.

(** When all keys have left the queue, no path leads to [to]. *)
Lemma closed_reach g to previous u w p :
  (∀ v, is_Some (previous !! v) → closed g previous v ∧ v ≠ to) →
  path g u w p → is_Some (previous !! u) → is_Some (previous !! w).
Proof.
  intros Hcl. induction 1 as [v|u v w p Hedge Hp IH]; intros Hu; [done|].
  apply IH. destruct (Hcl u Hu) as [Hclu _]. by apply Hclu.
Qed.

(** A sequence that the loop returns is empty when no path leads from
    [from] to [to], and a shortest path otherwise. *)
Lemma bfs_shortest g from to fuel queue previous p :
  bfs_inv g from to queue previous →
  bfs E0 visit fuel g from to queue previous = Some (Ok p) →
  (p = [] ∧ ∀ p', ¬ path g from to p')
  ∨ (path g from to p ∧ ∀ p', path g from to p' → (length p ≤ length p')%nat).
Proof.
  revert queue previous.
  induction fuel as [|fuel IH]; intros queue previous Hbfs; [done|].
  pose proof Hbfs as (Hinv & Hlay & Hmin & Hclosed).
  destruct queue as [|e queue]; cbn [bfs].
  { intros [= <-]. left. split; [done|]. intros p' Hp'.
    assert (Hcl : ∀ v, is_Some (previous !! v) → closed g previous v ∧ v ≠ to).
    { intros v Hv. destruct (Hclosed v Hv) as [Hq|]; [|done].
      by apply elem_of_nil in Hq. }
    destruct Hinv as (Hfrom & _).
    destruct (Hcl to); [|done].
    eapply closed_reach; [done..|]. by eexists. }
  assert (He : is_Some (previous !! e)).
  { destruct Hinv as (_ & Hq & _). apply Hq. by left. }
  case_decide as Hto.
  - subst e. destruct Hinv as (_ & _ & Htr & _).
    destruct (Htr to He) as (l & Hl & Hlen).
    rewrite (walk_back_trail g from previous to l) by (done || lia). simpl.
    intros [= <-]. right. split; [by eapply trail_path|].
    intros p' Hp'. rewrite length_rev.
    pose proof (trail_path_length _ _ _ _ _ Hl).
    assert (Hd : depth g previous from to (pred (length l))).
    { exists l. split; [done|lia]. }
    pose proof (Hmin _ _ _ Hd Hp'). lia.
  - unfold map_at. destruct (edges g !! e) as [s|] eqn:Hs; cbn [bind]; [|done].
    destruct (foldlM (expand g e) (queue, previous) (visit e (GetAdd s)))
      as [[q' p']|] eqn:Hfold; [|done].
    apply IH. by eapply bfs_inv_step.
Qed.

(** [AnyPath] returns.  A sequence that it returns is empty exactly
    when an end point is not a vertex of the graph or no path of valid
    edges leads from [from] to [to], and is a shortest such path otherwise.
    It throws only if a key that some edge set records, or [from], has no
    edge set. *)
Lemma AnyPath_correct g from to :
  ∃ r, AnyPath E0 visit g from to = Some r
    ∧ (∀ p, r = Ok p →
         (p = []
          ∧ (ContainsVertex g from = Ok false ∨ ContainsVertex g to = Ok false
             ∨ ∀ p', ¬ path g from to p'))
         ∨ (ContainsVertex g from = Ok true ∧ ContainsVertex g to = Ok true
            ∧ path g from to p
            ∧ ∀ p', path g from to p' → (length p ≤ length p')%nat))
    ∧ ((∀ v, v ∈ targets g ∪ {[from]} → is_Some (edges g !! v)) → ∃ p, r = Ok p).
Proof.
  destruct (AnyPath_returns g from to) as (r & Hr & _). exists r. split; [done|].
  revert Hr. unfold AnyPath, AnyPath_fuel, ContainsVertex. rewrite !Contains_present.
  destruct (present (vertices g) from), (present (vertices g) to); cbn -[bfs];
    try (intros [= <-]; split; [|by eexists]; intros p [= <-]; left; split; auto).
  intros Hr. split.
  - intros p ->. destruct (bfs_shortest _ _ _ _ _ _ _ (bfs_inv_init g from to) Hr)
      as [[-> Hno]|[Hp Hmin]]; [left|right]; auto.
  - intros Hsets. eapply bfs_no_throw; [done|apply search_inv_init|done].
Qed.

Lemma AnyPath_absent g from to :
  ContainsVertex g from = Ok false ∨ ContainsVertex g to = Ok false →
  AnyPath E0 visit g from to = Some (Ok []).
Proof. apply AnyPath_fuel_absent. Qed.

Lemma AnyPath_self g v :
  ContainsVertex g v = Ok true → AnyPath E0 visit g v v = Some (Ok [v]).
Proof. apply AnyPath_fuel_self. Qed.

Lemma AnyPath_no_edge_set g from to :
  from ≠ to →
  ContainsVertex g from = Ok true → ContainsVertex g to = Ok true →
  edges g !! from = None →
  AnyPath E0 visit g from to = Some (Throw out_of_range).
Proof. apply AnyPath_fuel_no_edge_set. Qed.
End queries.

(** ** What the graph guarantees *)

Section graph_properties.
Import LWWElementSet LWWElementGraph.
Context {E : Type} `{Countable E}.
Implicit Types (g o : LWWElementGraph.t E) (s : LWWElementSet.t E).

Lemma AllConnectedVertices_spec g e :
  ∃ r, AllConnectedVertices g e = Ok r
       ∧ ∀ x, x ∈ r ↔ ContainsEdge g e x = Ok true ∨ ContainsEdge g x e = Ok true.
Proof. by apply AllConnectedVertices_along_spec. Qed.

Lemma AllConnectedVertices_total g e : ∃ r, AllConnectedVertices g e = Ok r.
Proof. destruct (AllConnectedVertices_spec g e) as (r & Hr & _). by exists r. Qed.

(** C1.  The graph's [Merge] is idempotent, commutative and
    associative, states being compared with the graph's [operator==]
    over the raw vertex and edge maps.  Idempotence is shown both for
    [G.Merge(G)], where the argument is the graph itself, and for the
    merge of a separate graph in the same state. *)
Theorem Merge_idempotent_commutative_associative :
  (∀ G : LWWElementGraph.t E,
     LWWElementGraph.eqb (Merge_self G) G = true
     ∧ LWWElementGraph.eqb (Merge G G) G = true)
  ∧ (∀ A B : LWWElementGraph.t E,
       LWWElementGraph.eqb (Merge A B) (Merge B A) = true)
  ∧ (∀ A B C : LWWElementGraph.t E,
       LWWElementGraph.eqb (Merge (Merge A B) C) (Merge A (Merge B C)) = true).
Proof.
  split_and!; intros; try split; apply graph_eqb_eq.
  - apply graph_Merge_self.
  - apply graph_Merge_idemp.
  - apply graph_Merge_comm.
  - apply graph_Merge_assoc.
Qed.

(** C4.  Edge-vertex causality.  When conditions 1 to 3 of the edge
    validity predicate hold, [ContainsEdge(from, to)] is [true] iff the
    edge's add-timestamp is at least both endpoints' add-timestamps:
    [false] when it is strictly less than either, [true] when it is
    greater than or equal to both. *)
Theorem ContainsEdge_causality g from to s te tf tt :
  edges g !! from = Some s → add s !! to = Some te →
  Contains s to = Ok true →
  ContainsVertex g from = Ok true → ContainsVertex g to = Ok true →
  (∀ r, remove (vertices g) !! from = Some r → r < te) →
  (∀ r, remove (vertices g) !! to = Some r → r < te) →
  add (vertices g) !! from = Some tf → add (vertices g) !! to = Some tt →
  ContainsEdge g from to = Ok (bool_decide (tf ≤ te ∧ tt ≤ te))
  ∧ (te < tf ∨ te < tt → ContainsEdge g from to = Ok false)
  ∧ (tf ≤ te ∧ tt ≤ te → ContainsEdge g from to = Ok true).
Proof.
  intros Hs Hte Hc1 Hvf Hvt Hrf Hrt Htf Htt.
  unfold ContainsVertex in *. rewrite Contains_present in Hc1, Hvf, Hvt.
  injection Hc1 as Hc1. injection Hvf as Hvf. injection Hvt as Hvt.
  assert (Hce : ContainsEdge g from to = Ok (bool_decide (tf ≤ te ∧ tt ≤ te))).
  { rewrite ContainsEdge_edge_valid. f_equal. unfold edge_valid.
    rewrite Hs, Hte, Hc1, Hvf, Hvt, Htf, Htt. simpl.
    assert (Hdf : dominated te (remove (vertices g) !! from) = false).
    { unfold dominated. destruct (remove (vertices g) !! from) as [r|]; [|done].
      apply bool_decide_eq_false. specialize (Hrf r eq_refl). lia. }
    assert (Hdt : dominated te (remove (vertices g) !! to) = false).
    { unfold dominated. destruct (remove (vertices g) !! to) as [r|]; [|done].
      apply bool_decide_eq_false. specialize (Hrt r eq_refl). lia. }
    rewrite Hdf, Hdt. simpl.
    repeat case_bool_decide; simpl; try done; lia. }
  split_and!; [done| |].
  - intros Hlt. rewrite Hce. f_equal. apply bool_decide_eq_false. lia.
  - intros Hge. rewrite Hce. f_equal. by apply bool_decide_eq_true.
Qed.

(** C5.  Vertex removal dominates incident edges.  If an endpoint of an
    edge has a remove-timestamp greater than or equal to the edge's
    add-timestamp, [ContainsEdge(from, to)] is [false], whether or not
    the edge's own set still contains the edge. *)
Theorem ContainsEdge_vertex_removal g from to s te r :
  edges g !! from = Some s → add s !! to = Some te →
  remove (vertices g) !! from = Some r ∨ remove (vertices g) !! to = Some r →
  te ≤ r →
  ContainsEdge g from to = Ok false.
Proof.
  intros Hs Hte Hr Hle. rewrite ContainsEdge_edge_valid. f_equal.
  unfold edge_valid. rewrite Hs, Hte.
  assert (Hd : dominated te (remove (vertices g) !! from) = true
             ∨ dominated te (remove (vertices g) !! to) = true).
  { destruct Hr as [Hr|Hr]; [left|right]; rewrite Hr; simpl;
      by apply bool_decide_eq_true. }
  destruct Hd as [-> | ->]; simpl;
    repeat (rewrite ?andb_false_r, ?andb_false_l; simpl); done.
Qed.

(** C9.  [ContainsEdge(from, to)] is total: on every graph and every
    pair of keys it returns a boolean, and never runs into a missing key.
    Each use of [at] in it is reached only after the matching existence
    check has succeeded. *)
Theorem ContainsEdge_total g from to :
  ∃ b : bool, ContainsEdge g from to = Ok b.
Proof. eexists. apply ContainsEdge_edge_valid. Qed.

(** C10.  [AddEdge(from, to, t)] and [RemoveEdge(from, to, t)] leave the
    vertex set and every edge set other than the one of [from] as they
    were.  [AddEdge] checks nothing about the endpoints: on every graph
    it records the timestamp in the edge set of [from], also when [from]
    or [to] was never added as a vertex. *)
Theorem AddEdge_RemoveEdge_frame g from to ts :
  vertices (AddEdge g from to ts) = vertices g
  ∧ (∀ k, k ≠ from → edges (AddEdge g from to ts) !! k = edges g !! k)
  ∧ vertices (RemoveEdge g from to ts) = vertices g
  ∧ (∀ k, k ≠ from → edges (RemoveEdge g from to ts) !! k = edges g !! k)
  ∧ (∃ s', edges (AddEdge g from to ts) !! from = Some s'
           ∧ add s' !! to =
               Some (match edges g !! from ≫= (λ s, add s !! to) with
                     | Some a => Z.max a ts
                     | None => ts
                     end)
           ∧ ∀ k, k ≠ to → add s' !! k = edges g !! from ≫= (λ s, add s !! k))
  ∧ (AddExist (vertices g) from = false → AddExist (vertices g) to = false →
     ∃ s', edges (AddEdge g from to ts) !! from = Some s' ∧ AddExist s' to = true).
Proof.
  assert (Hrec : ∃ s', edges (AddEdge g from to ts) !! from = Some s'
           ∧ add s' !! to =
               Some (match edges g !! from ≫= (λ s, add s !! to) with
                     | Some a => Z.max a ts
                     | None => ts
                     end)
           ∧ ∀ k, k ≠ to → add s' !! k = edges g !! from ≫= (λ s, add s !! k)).
  { eexists. split; [apply lookup_insert_eq|].
    rewrite Add_upsert. simpl. unfold subscript. split.
    - rewrite lookup_upsert, decide_True by done.
      destruct (edges g !! from) as [s|]; simpl; [by destruct (add s !! to)|done].
    - intros k Hk. rewrite lookup_upsert, decide_False by done.
      by destruct (edges g !! from) as [s|]. }
  split_and!; try done.
  - intros k Hk. simpl. by rewrite lookup_insert_ne.
  - intros k Hk. simpl. by rewrite lookup_insert_ne.
  - intros _ _. destruct Hrec as (s' & Hs' & Hto & _). exists s'. split; [done|].
    apply AddExist_true. rewrite Hto. by eexists.
Qed.
End graph_properties.

(** ** Where the search fails *)

Section visiting_order.
Import LWWElementSet LWWElementGraph.
Context {E : Type} `{Countable E} (E0 : E).
Context (visit visit' : E → gmap E Z → list (E * Z)).

(** The search only consults the visiting order on the edge sets of the
    graph. *)
Lemma AnyPath_visit_ext (g : LWWElementGraph.t E) from to :
  (∀ e, visit e (GetAdd (subscript LWWElementSet.empty (edges g) e))
        = visit' e (GetAdd (subscript LWWElementSet.empty (edges g) e))) →
  AnyPath E0 visit g from to = AnyPath E0 visit' g from to.
Proof.
  intros Hext. unfold AnyPath, AnyPath_fuel.
  destruct (orelse _ _) as [[]|]; [done| |done].
  generalize (S (S (size (targets g)))) ([from]) (<[from := from]> (∅ : gmap E E)).
  intros fuel. induction fuel as [|fuel IH]; intros queue previous; [done|].
  destruct queue as [|e queue]; cbn [bfs]; [done|].
  case_decide; [done|].
  specialize (Hext e). unfold subscript, map_at, GetAdd in *.
  destruct (edges g !! e) as [s|]; cbn [bind]; [|done].
  simpl in Hext. rewrite Hext. destruct (foldlM _ _ _) as [[q' p']|]; [apply IH|done].
Qed.
End visiting_order.

Section failures.
Import LWWElementSet LWWElementGraph Tests.

(** C3.  A vertex without an edge-set entry should count as a vertex
    with an empty edge set.  [AllConnectedVertices] meets this: it always
    returns.  [AnyPath] does not: as soon as the search expands a vertex
    that has no edge set, here [from] itself, [edges.at] throws. *)
Theorem AnyPath_throws_on_missing_edge_set {E : Type} `{Countable E}
    (E0 : E) (visit : E → gmap E Z → list (E * Z)) :
  (∀ (g : LWWElementGraph.t E) e, ∃ r, AllConnectedVertices g e = Ok r)
  ∧ (∀ (g : LWWElementGraph.t E) from to,
       from ≠ to →
       ContainsVertex g from = Ok true → ContainsVertex g to = Ok true →
       edges g !! from = None →
       AnyPath E0 visit g from to = Some (Throw out_of_range)).
Proof.
  split.
  - apply AllConnectedVertices_total.
  - apply AnyPath_no_edge_set.
Qed.

(** C6.  [AnyPath] should return the empty sequence when no path
    exists and a shortest path otherwise.  Between two vertices without
    edges it throws instead of returning the empty sequence.  In [fork] it
    throws although 0→2→3 is a path of valid edges: vertex 1 is expanded
    before 3 is reached, whichever of 1 and 2 is visited first, and it has
    no edge set. *)
Theorem AnyPath_throws_instead_of_answering (visit : Z → gmap Z Z → list (Z * Z)) :
  (∀ e (m : gmap Z Z), visit e m ≡ₚ map_to_list m) →
  (ContainsVertex two_vertices 0 = Ok true ∧ ContainsVertex two_vertices 1 = Ok true
   ∧ (∀ p, ¬ path two_vertices 0 1 p)
   ∧ AnyPath 0 visit two_vertices 0 1 = Some (Throw out_of_range))
  ∧ (path fork 0 3 [0; 2; 3]
     ∧ AnyPath 0 visit fork 0 3 = Some (Throw out_of_range)).
Proof.
  intros Hvisit. split; split_and!; try by vm_compute.
  - intros p Hp. inversion Hp as [|u v w p' Hedge Hp']; subst.
    vm_compute in Hedge. discriminate.
  - apply (path_edge _ 0 2); [by vm_compute|].
    apply (path_edge _ 2 3); [by vm_compute|]. constructor.
  - set (M := λ e : Z, GetAdd (subscript LWWElementSet.empty (edges fork) e)).
    assert (Hother : ∀ e, e ≠ 0 → e ≠ 2 → visit e (M e) = []).
    { intros e H0 H2. apply Permutation_nil_r. rewrite Hvisit.
      unfold M, subscript, fork, AddEdge, AddVertex, LWWElementGraph.empty.
      cbn [edges]. by rewrite !lookup_insert_ne, lookup_empty by done. }
    assert (H2 : visit 2 (M 2) = [(3, 6)]).
    { apply Permutation_length_1_inv. symmetry. by rewrite Hvisit. }
    assert (H0 : visit 0 (M 0) = [(2, 5); (1, 4)] ∨ visit 0 (M 0) = [(1, 4); (2, 5)]).
    { apply Permutation_length_2_inv. symmetry. by rewrite Hvisit. }
    destruct H0 as [H0|H0].
    + rewrite (AnyPath_visit_ext 0 visit
                 (λ e _, if decide (e = 0) then [(2, 5); (1, 4)]
                         else if decide (e = 2) then [(3, 6)] else []));
        [by vm_compute|].
      intros e. fold (M e). repeat case_decide; subst; auto.
    + rewrite (AnyPath_visit_ext 0 visit
                 (λ e _, if decide (e = 0) then [(1, 4); (2, 5)]
                         else if decide (e = 2) then [(3, 6)] else []));
        [by vm_compute|].
      intros e. fold (M e). repeat case_decide; subst; auto.
Qed.
End failures.

Lemma AnyPath_throws_on_missing_edge_set_witness :
  (0 ≠ 1
   ∧ LWWElementGraph.ContainsVertex Tests.two_vertices 0 = Ok true
   ∧ LWWElementGraph.ContainsVertex Tests.two_vertices 1 = Ok true
   ∧ LWWElementGraph.edges Tests.two_vertices !! 0 = None)
  ∧ LWWElementGraph.AnyPath 0 LWWElementGraph.in_map_order Tests.two_vertices 0 1
    = Some (Throw out_of_range).
Proof.
  split; [split_and!; [lia|reflexivity..]|].
  apply (proj2 (AnyPath_throws_on_missing_edge_set 0 LWWElementGraph.in_map_order)
           Tests.two_vertices 0 1);
    [lia|reflexivity..].
Defined.

Lemma AnyPath_throws_instead_of_answering_witness :
  (∀ e (m : gmap Z Z), LWWElementGraph.in_map_order e m ≡ₚ map_to_list m)
  ∧ LWWElementGraph.AnyPath 0 LWWElementGraph.in_map_order Tests.fork 0 3
    = Some (Throw out_of_range).
Proof.
  assert (Hv : ∀ e (m : gmap Z Z), LWWElementGraph.in_map_order e m ≡ₚ map_to_list m)
    by reflexivity.
  split; [exact Hv|].
  exact (proj2 (proj2 (AnyPath_throws_instead_of_answering _ Hv))).
Defined.

Lemma ContainsEdge_causality_witness :
  LWWElementGraph.ContainsEdge Tests.simultaneous 0 1 = Ok (bool_decide (0 ≤ 0 ∧ 0 ≤ 0))
  ∧ (0 < 0 ∨ 0 < 0 → LWWElementGraph.ContainsEdge Tests.simultaneous 0 1 = Ok false)
  ∧ (0 ≤ 0 ∧ 0 ≤ 0 → LWWElementGraph.ContainsEdge Tests.simultaneous 0 1 = Ok true).
Proof.
  apply (ContainsEdge_causality Tests.simultaneous 0 1 (LWWElementSet.mk {[1 := 0]} ∅) 0 0 0);
    try reflexivity.
  - intros r Hr. vm_compute in Hr. discriminate.
  - intros r Hr. vm_compute in Hr. discriminate.
Defined.

Lemma ContainsEdge_vertex_removal_witness :
  LWWElementSet.Contains (LWWElementSet.mk {[1 := 2]} ∅) 1 = Ok true
  ∧ LWWElementGraph.ContainsVertex Tests.readded 1 = Ok true
  ∧ LWWElementGraph.ContainsEdge Tests.readded 0 1 = Ok false.
Proof.
  split_and!; [reflexivity..|].
  apply (ContainsEdge_vertex_removal Tests.readded 0 1 (LWWElementSet.mk {[1 := 2]} ∅) 2 3).
  - reflexivity.
  - reflexivity.
  - right. reflexivity.
  - lia.
Defined.

Lemma AddEdge_RemoveEdge_frame_witness :
  ∃ s', LWWElementGraph.edges (LWWElementGraph.AddEdge LWWElementGraph.empty 0 1 7) !! 0
          = Some s'
        ∧ LWWElementSet.AddExist s' 1 = true.
Proof.
  apply (AddEdge_RemoveEdge_frame (LWWElementGraph.empty (E:=Z)) 0 1 7); reflexivity.
Defined.

(** ** The assertions of [main.cpp]

    Each example replays a block of [main.cpp] on the embedding and
    checks the conditions that the block asserts. *)

Section main_cpp.
Import LWWElementGraph Tests.

Example TestOperations_idempotent :
  let g0 := empty (E:=Z) in
  let g1 := AddVertex (AddVertex g0 0 0) 0 0 in
  let g2 := AddEdge (AddEdge (AddVertex g1 1 0) 0 1 1) 0 1 1 in
  let g3 := RemoveEdge g2 0 1 2 in
  let g4 := RemoveEdge g3 0 1 2 in
  ContainsVertex g0 0 = Ok false ∧ ContainsVertex g1 0 = Ok true
  ∧ ContainsEdge g2 0 1 = Ok true ∧ ContainsEdge g3 0 1 = Ok false
  ∧ ContainsEdge g4 0 1 = Ok false.
Proof. by vm_compute. Qed.

Example TestOperations_commutative :
  let a := AddVertex (AddVertex (empty (E:=Z)) 0 0) 1 1 in
  let b := AddVertex (AddVertex (empty (E:=Z)) 1 1) 0 0 in
  let a' := RemoveEdge (AddEdge a 1 0 2) 1 0 3 in
  let b' := AddEdge (RemoveEdge b 1 0 3) 1 0 2 in
  let a'' := Merge a' b' in
  let b'' := Merge b' a'' in
  eqb a b = true ∧ eqb a' b' = true ∧ eqb a'' b' = true ∧ eqb a'' b'' = true.
Proof. by vm_compute. Qed.

Example TestOperations_associative :
  let a := AddVertex (empty (E:=Z)) 0 0 in
  let b := AddVertex (empty (E:=Z)) 1 1 in
  let c := AddVertex (empty (E:=Z)) 2 2 in
  eqb (Merge (Merge a b) c) (Merge a (Merge b c)) = true.
Proof. by vm_compute. Qed.

Example TestPrecedence_same_time :
  ContainsVertex (RemoveVertex (AddVertex (empty (E:=Z)) 0 0) 0 0) 0 = Ok false.
Proof. by vm_compute. Qed.

Example TestPrecedence_edge_with_vertices :
  ContainsEdge simultaneous 0 1 = Ok true ∧ ContainsEdge simultaneous 1 0 = Ok false
  ∧ ContainsVertex simultaneous 0 = Ok true ∧ ContainsVertex simultaneous 1 = Ok true.
Proof. by vm_compute. Qed.

Example TestPrecedence_vertex_removed_with_edge :
  let g := RemoveVertex (AddEdge two_vertices 0 1 1) 1 1 in
  ContainsEdge g 0 1 = Ok false ∧ ContainsVertex g 0 = Ok true
  ∧ ContainsVertex g 1 = Ok false.
Proof. by vm_compute. Qed.

Example TestPrecedence_edge_before_vertices :
  let g := AddEdge two_vertices 0 1 (-1) in
  ContainsEdge g 0 1 = Ok false ∧ ContainsVertex g 0 = Ok true
  ∧ ContainsVertex g 1 = Ok true.
Proof. by vm_compute. Qed.

Example TestConnections :
  let out := foldl (λ g i, AddEdge (AddVertex g i 0) 0 i 0)
                   (AddVertex (empty (E:=Z)) 0 0) (seqZ 1 20) in
  let both := foldl (λ g i, AddEdge (AddVertex g (20 + i) 1) (i + 20) 0 1)
                    out (seqZ 1 20) in
  (∃ r, AllConnectedVertices out 0 = Ok r ∧ size r = 20%nat)
  ∧ (∃ r, AllConnectedVertices both 0 = Ok r ∧ size r = 40%nat).
Proof. split; eexists; split; by vm_compute. Qed.

Example TestMerging_vertices :
  let g := Merge (AddVertex (empty (E:=Z)) 0 0) (AddVertex empty 1 1) in
  ContainsVertex g 0 = Ok true ∧ ContainsVertex g 1 = Ok true.
Proof. by vm_compute. Qed.

Example TestMerging_removals :
  let other := RemoveVertex (AddVertex (empty (E:=Z)) 0 0) 0 2 in
  let other' := RemoveVertex (AddVertex (empty (E:=Z)) 0 0) 0 3 in
  ContainsVertex (Merge (AddVertex empty 0 1) other) 0 = Ok false
  ∧ ContainsVertex (Merge (RemoveVertex (AddVertex empty 0 1) 0 3) other) 0 = Ok false
  ∧ ContainsVertex (Merge (RemoveVertex (AddVertex empty 0 1) 0 2) other') 0 = Ok false.
Proof. by vm_compute. Qed.

Example TestMerging_edges :
  let g := AddEdge (AddVertex (AddVertex (empty (E:=Z)) 0 0) 1 1) 1 0 2 in
  let other := AddEdge (AddVertex (AddVertex (empty (E:=Z)) 0 2) 1 3) 0 1 4 in
  let g' := Merge g other in
  let g'' := Merge g' (RemoveEdge other 0 1 5) in
  ContainsEdge g' 0 1 = Ok true ∧ ContainsEdge g' 1 0 = Ok false
  ∧ ContainsEdge g'' 0 1 = Ok false.
Proof. by vm_compute. Qed.

Example TestAnyPath_general :
  let g' := RemoveEdge diamond 0 1 8 in
  let g'' := RemoveEdge g' 2 3 9 in
  (AnyPath 0 in_map_order diamond 0 3 = Some (Ok [0; 1; 3])
   ∨ AnyPath 0 in_map_order diamond 0 3 = Some (Ok [0; 2; 3]))
  ∧ AnyPath 0 in_map_order g' 0 3 = Some (Ok [0; 2; 3])
  ∧ AnyPath 0 in_map_order g'' 0 3 = Some (Ok []).
Proof. split_and!; [right|..]; by vm_compute. Qed.

Example TestAnyPath_missing_target :
  let g := RemoveVertex diamond 2 8 in
  let g' := AddVertex g 2 9 in
  ContainsEdge g 0 2 = Ok false ∧ ContainsEdge g 2 3 = Ok false
  ∧ AnyPath 0 in_map_order g 0 2 = Some (Ok [])
  ∧ ContainsEdge g' 0 2 = Ok false ∧ ContainsEdge g' 2 3 = Ok false
  ∧ AnyPath 0 in_map_order g' 0 0 = Some (Ok [0]).
Proof. by vm_compute. Qed.
End main_cpp.

(** * Further properties *)

(** ** The set as a replicated state *)

Lemma foldl_commute_permutation {A B : Type} (f : B → A → B) (l1 l2 : list A) :
  (∀ b x y, f (f b x) y = f (f b y) x) →
  l1 ≡ₚ l2 → ∀ b, foldl f b l1 = foldl f b l2.
Proof.
  intros Hf. induction 1 as [|x l1 l2 _ IH|x y l|l1 l2 l3 _ IH1 _ IH2]; intros b; simpl.
  - done.
  - apply IH.
  - by rewrite Hf.
  - by rewrite IH1.
Qed.

Section set_replication.
Import LWWElementSet History.
Context {E : Type} `{Countable E}.
Implicit Types (s o : LWWElementSet.t E) (ops : list (op E)).

Lemma set_Merge_empty_r s : Merge s empty = s.
Proof. by rewrite set_Merge_comm, set_Merge_empty_l. Qed.

Lemma set_apply_as_Merge s (x : op E) : apply s x = Merge s (apply empty x).
Proof.
  destruct x as [e ts|e ts|o]; simpl.
  - rewrite Merge_join, !Add_upsert. simpl. f_equal.
    + apply map_eq. intros k. unfold map_join.
      rewrite lookup_union_with, !lookup_upsert, lookup_empty by apply _.
      case_decide; [|by destruct (add s !! k)]. subst k. by destruct (add s !! e).
    + unfold map_join. apply map_eq. intros k.
      rewrite lookup_union_with, lookup_empty. by destruct (remove s !! k).
  - rewrite Merge_join, !Remove_upsert. simpl. f_equal.
    + unfold map_join. apply map_eq. intros k.
      rewrite lookup_union_with, lookup_empty. by destruct (add s !! k).
    + apply map_eq. intros k. unfold map_join.
      rewrite lookup_union_with, !lookup_upsert, lookup_empty by apply _.
      case_decide; [|by destruct (remove s !! k)]. subst k. by destruct (remove s !! e).
  - by rewrite set_Merge_empty_l.
Qed.

Lemma set_apply_commute s (x y : op E) : apply (apply s x) y = apply (apply s y) x.
Proof.
  rewrite (set_apply_as_Merge (apply s x) y), (set_apply_as_Merge (apply s y) x),
    (set_apply_as_Merge s x), (set_apply_as_Merge s y).
  rewrite <-!set_Merge_assoc. f_equal. apply set_Merge_comm.
Qed.

Lemma set_foldl_apply_as_Merge ops s : foldl apply s ops = Merge s (run ops).
Proof.
  unfold run. induction ops as [|x ops IH] using rev_ind; simpl.
  - by rewrite set_Merge_empty_r.
  - rewrite !foldl_snoc, IH.
    rewrite (set_apply_as_Merge (Merge s (foldl apply empty ops)) x),
      (set_apply_as_Merge (foldl apply empty ops) x).
    by rewrite set_Merge_assoc.
Qed.

(** X1.  [Add(e, t)], [Remove(e, t)] and [Merge(o)] each act on a set as
    the merge of the set that the same call builds from an empty set.
    Applying one of them twice is the same as applying it once, and any
    two of them can be applied in either order. *)
Theorem set_mutators_are_merges s (x : op E) :
  apply s x = Merge s (apply empty x)
  ∧ apply (apply s x) x = apply s x
  ∧ ∀ y, apply (apply s x) y = apply (apply s y) x.
Proof.
  split_and!.
  - apply set_apply_as_Merge.
  - rewrite (set_apply_as_Merge (apply s x)), (set_apply_as_Merge s x).
    by rewrite <-set_Merge_assoc, set_Merge_idemp.
  - intros y. apply set_apply_commute.
Qed.

(** X2.  On sets, [Merge] is idempotent (also when a set is merged with
    itself as the argument), commutative and associative, has the empty
    set as a neutral element on both sides, and absorbs a set that was
    merged before; states are compared with the set's [operator==]. *)
Theorem set_Merge_semilattice :
  (∀ s, LWWElementSet.eqb (Merge_self s) s = true
        ∧ LWWElementSet.eqb (Merge s s) s = true)
  ∧ (∀ s o, LWWElementSet.eqb (Merge s o) (Merge o s) = true)
  ∧ (∀ s1 s2 s3,
       LWWElementSet.eqb (Merge (Merge s1 s2) s3) (Merge s1 (Merge s2 s3)) = true)
  ∧ (∀ s, LWWElementSet.eqb (Merge s empty) s = true
          ∧ LWWElementSet.eqb (Merge empty s) s = true)
  ∧ (∀ s o, LWWElementSet.eqb (Merge (Merge s o) o) (Merge s o) = true).
Proof.
  split_and!; intros; try split; apply set_eqb_eq.
  - apply set_Merge_self.
  - apply set_Merge_idemp.
  - apply set_Merge_comm.
  - symmetry. apply set_Merge_assoc.
  - apply set_Merge_empty_r.
  - apply set_Merge_empty_l.
  - by rewrite <-set_Merge_assoc, set_Merge_idemp.
Qed.

(** X3.  The set's [operator==] holds exactly when the two sets record
    the same add-timestamp and the same remove-timestamp, or none, for
    every element; sets that it equates answer [Contains] alike. *)
Theorem set_eqb_extensional s1 s2 :
  (LWWElementSet.eqb s1 s2 = true ↔
     ∀ e, add s1 !! e = add s2 !! e ∧ remove s1 !! e = remove s2 !! e)
  ∧ (LWWElementSet.eqb s1 s2 = true → ∀ e, Contains s1 e = Contains s2 e).
Proof.
  split.
  - rewrite set_eqb_eq. split; [by intros ->|].
    intros Hext. destruct s1 as [a1 r1], s2 as [a2 r2]. simpl in Hext.
    f_equal; apply map_eq; intros e; by destruct (Hext e).
  - by intros ->%set_eqb_eq.
Qed.

(** X4.  No operation on a set forgets an element or lowers a
    timestamp: a timestamp that a set records for an element is still
    recorded, or replaced by a greater one, after any sequence of [Add],
    [Remove] and [Merge]. *)
Theorem timestamps_never_decrease s ops e a :
  (add s !! e = Some a →
     ∃ a', add (foldl apply s ops) !! e = Some a' ∧ a ≤ a')
  ∧ (remove s !! e = Some a →
       ∃ a', remove (foldl apply s ops) !! e = Some a' ∧ a ≤ a').
Proof.
  split; intros Ha.
  - rewrite lookup_add_foldl_apply, Ha.
    destruct (max_of (adds_applied e ops)) as [m|]; simpl; eexists; split; try done; lia.
  - rewrite lookup_remove_foldl_apply, Ha.
    destruct (max_of (removes_applied e ops)) as [m|]; simpl; eexists; split; try done; lia.
Qed.

(** X5.  Replicas converge: the state of a set after a sequence of
    [Add], [Remove] and [Merge] does not depend on the order of the
    sequence, and merging a set built by a sequence of operations is the
    same as applying these operations one by one. *)
Theorem set_histories_converge s :
  (∀ ops1 ops2, ops1 ≡ₚ ops2 →
     LWWElementSet.eqb (foldl apply s ops1) (foldl apply s ops2) = true)
  ∧ (∀ ops, LWWElementSet.eqb (Merge s (run ops)) (foldl apply s ops) = true).
Proof.
  split.
  - intros ops1 ops2 Hp. apply set_eqb_eq.
    apply foldl_commute_permutation; [|done]. intros. apply set_apply_commute.
  - intros ops. apply set_eqb_eq. symmetry. apply set_foldl_apply_as_Merge.
Qed.

Lemma present_Merge_agree s o e (b : bool) :
  present s e = b → present o e = b → present (Merge s o) e = b.
Proof.
  unfold present. rewrite lookup_add_Merge, lookup_remove_Merge.
  destruct (add s !! e), (remove s !! e), (add o !! e), (remove o !! e), b; simpl;
    repeat case_bool_decide; try done; lia.
Qed.

(** X6.  When two sets agree on whether they contain an element, the
    merged set agrees with them. *)
Theorem Contains_Merge_agree s o e (b : bool) :
  Contains s e = Ok b → Contains o e = Ok b → Contains (Merge s o) e = Ok b.
Proof.
  rewrite !Contains_present. intros [= Hs] [= Ho]. f_equal.
  by apply present_Merge_agree.
Qed.
End set_replication.

Lemma timestamps_never_decrease_witness :
  LWWElementSet.add (LWWElementSet.Add LWWElementSet.empty 0 3) !! 0 = Some 3
  ∧ ∃ a',
      LWWElementSet.add
        (foldl History.apply (LWWElementSet.Add LWWElementSet.empty 0 3)
           [History.OpAdd 0 1; History.OpRemove 0 7; History.OpAdd 0 5]) !! 0 = Some a'
      ∧ 3 ≤ a'.
Proof.
  split; [reflexivity|].
  apply (proj1 (timestamps_never_decrease
                  (LWWElementSet.Add LWWElementSet.empty 0 3)
                  [History.OpAdd 0 1; History.OpRemove 0 7; History.OpAdd 0 5] 0 3)).
  reflexivity.
Defined.

Lemma set_histories_converge_witness :
  [History.OpAdd 0 1; History.OpRemove 0 2] ≡ₚ [History.OpRemove 0 2; History.OpAdd 0 1]
  ∧ LWWElementSet.eqb
      (foldl History.apply LWWElementSet.empty [History.OpAdd 0 1; History.OpRemove 0 2])
      (foldl History.apply LWWElementSet.empty [History.OpRemove 0 2; History.OpAdd 0 1])
    = true.
Proof.
  assert (Hp : [History.OpAdd 0 1; History.OpRemove 0 2]
               ≡ₚ [History.OpRemove (E:=Z) 0 2; History.OpAdd 0 1]) by apply perm_swap.
  split; [exact Hp|].
  exact (proj1 (set_histories_converge LWWElementSet.empty) _ _ Hp).
Defined.

Lemma Contains_Merge_agree_witness :
  LWWElementSet.Contains (LWWElementSet.Remove (LWWElementSet.Add LWWElementSet.empty 0 5) 0 6) 0
    = Ok false
  ∧ LWWElementSet.Contains (LWWElementSet.Remove (LWWElementSet.Add LWWElementSet.empty 0 7) 0 8) 0
    = Ok false
  ∧ LWWElementSet.Contains
      (LWWElementSet.Merge
         (LWWElementSet.Remove (LWWElementSet.Add LWWElementSet.empty 0 5) 0 6)
         (LWWElementSet.Remove (LWWElementSet.Add LWWElementSet.empty 0 7) 0 8)) 0
    = Ok false.
Proof.
  split_and!; [reflexivity..|].
  apply Contains_Merge_agree; reflexivity.
Defined.

Lemma set_eqb_extensional_witness :
  LWWElementSet.eqb
    (LWWElementSet.Add (LWWElementSet.Add LWWElementSet.empty 0 1) 1 2)
    (LWWElementSet.Add (LWWElementSet.Add LWWElementSet.empty 1 2) 0 1) = true
  ∧ ∀ e : Z,
      LWWElementSet.Contains
        (LWWElementSet.Add (LWWElementSet.Add LWWElementSet.empty 0 1) 1 2) e
      = LWWElementSet.Contains
          (LWWElementSet.Add (LWWElementSet.Add LWWElementSet.empty 1 2) 0 1) e.
Proof.
  split; [reflexivity|].
  apply (proj2 (set_eqb_extensional _ _)). reflexivity.
Defined.

(** ** The graph as a replicated state *)

Section graph_replication.
Import LWWElementSet LWWElementGraph GraphHistory.
Context {E : Type} `{Countable E}.
Implicit Types (g o : LWWElementGraph.t E) (ops : list (op E)).

Lemma map_join_empty_r {V : Type} (f : V → V → V) (m : gmap E V) : map_join f m ∅ = m.
Proof.
  apply map_eq. intros k. unfold map_join.
  rewrite lookup_union_with, lookup_empty. by destruct (m !! k).
Qed.

Lemma graph_Merge_empty_r g : Merge g LWWElementGraph.empty = g.
Proof.
  rewrite graph_Merge_join. simpl.
  rewrite set_Merge_empty_r, map_join_empty_r. by destruct g.
Qed.

Lemma graph_Merge_empty_l g : Merge LWWElementGraph.empty g = g.
Proof. by rewrite graph_Merge_comm, graph_Merge_empty_r. Qed.

Lemma lookup_edges_Merge g o k :
  edges (Merge g o) !! k = ojoin LWWElementSet.Merge (edges g !! k) (edges o !! k).
Proof. rewrite graph_Merge_join. simpl. apply lookup_union_with. Qed.

Lemma edge_update_as_join (es : gmap E (LWWElementSet.t E)) from
    (x : History.op E) :
  <[from := History.apply (subscript LWWElementSet.empty es from) x]> es
  = map_join LWWElementSet.Merge es
      (<[from := History.apply (subscript LWWElementSet.empty ∅ from) x]> ∅).
Proof.
  apply map_eq. intros k. unfold map_join, subscript.
  rewrite lookup_union_with, !lookup_insert, !lookup_empty. case_decide.
  - subst k. simpl. destruct (es !! from) as [s|]; simpl; [|done].
    by rewrite <-set_apply_as_Merge.
  - rewrite ?lookup_empty. by destruct (es !! k).
Qed.

Lemma graph_apply_as_Merge g (x : op E) :
  apply g x = Merge g (apply LWWElementGraph.empty x).
Proof.
  destruct x as [e ts|e ts|from to ts|from to ts|o]; simpl;
    [rewrite graph_Merge_join..|by rewrite graph_Merge_empty_l].
  - unfold AddVertex. simpl. rewrite map_join_empty_r. f_equal.
    apply (set_apply_as_Merge _ (History.OpAdd e ts)).
  - unfold RemoveVertex. simpl. rewrite map_join_empty_r. f_equal.
    apply (set_apply_as_Merge _ (History.OpRemove e ts)).
  - unfold AddEdge. simpl. rewrite set_Merge_empty_r. f_equal.
    apply (edge_update_as_join _ _ (History.OpAdd to ts)).
  - unfold RemoveEdge. simpl. rewrite set_Merge_empty_r. f_equal.
    apply (edge_update_as_join _ _ (History.OpRemove to ts)).
Qed.

Lemma graph_apply_commute g (x y : op E) : apply (apply g x) y = apply (apply g y) x.
Proof.
  rewrite (graph_apply_as_Merge (apply g x) y), (graph_apply_as_Merge (apply g y) x),
    (graph_apply_as_Merge g x), (graph_apply_as_Merge g y).
  rewrite !graph_Merge_assoc. f_equal. apply graph_Merge_comm.
Qed.

Lemma graph_foldl_apply_as_Merge ops g : foldl apply g ops = Merge g (run ops).
Proof.
  unfold run. induction ops as [|x ops IH] using rev_ind; simpl.
  - by rewrite graph_Merge_empty_r.
  - rewrite !foldl_snoc, IH.
    rewrite (graph_apply_as_Merge (Merge g (foldl apply LWWElementGraph.empty ops)) x),
      (graph_apply_as_Merge (foldl apply LWWElementGraph.empty ops) x).
    by rewrite graph_Merge_assoc.
Qed.

(** X7.  [AddVertex], [RemoveVertex], [AddEdge], [RemoveEdge] and
    [Merge] each act on a graph as the merge of the graph that the same
    call builds from an empty graph.  Applying one of them twice is the same
    as applying it once, and any two of them can be applied in either
    order. *)
Theorem graph_mutators_are_merges g (x : op E) :
  apply g x = Merge g (apply LWWElementGraph.empty x)
  ∧ apply (apply g x) x = apply g x
  ∧ ∀ y, apply (apply g x) y = apply (apply g y) x.
Proof.
  split_and!.
  - apply graph_apply_as_Merge.
  - rewrite (graph_apply_as_Merge (apply g x)), (graph_apply_as_Merge g x).
    by rewrite graph_Merge_assoc, graph_Merge_idemp.
  - intros y. apply graph_apply_commute.
Qed.

(** X8.  Replicas converge: the state of a graph after a sequence of
    vertex and edge operations and merges does not depend on the order of
    the sequence, and merging a graph built by a sequence of operations is
    the same as applying these operations one by one.  States are compared
    with the graph's [operator==]. *)
Theorem graph_histories_converge g :
  (∀ ops1 ops2, ops1 ≡ₚ ops2 →
     LWWElementGraph.eqb (foldl apply g ops1) (foldl apply g ops2) = true)
  ∧ (∀ ops, LWWElementGraph.eqb (Merge g (run ops)) (foldl apply g ops) = true).
Proof.
  split.
  - intros ops1 ops2 Hp. apply graph_eqb_eq.
    apply foldl_commute_permutation; [|done]. intros. apply graph_apply_commute.
  - intros ops. apply graph_eqb_eq. symmetry. apply graph_foldl_apply_as_Merge.
Qed.

(** X9.  The graph's [Merge] merges the vertex sets and, source by
    source, the edge sets, keeping an edge set that only one graph has.
    An empty graph is neutral for it on both sides, and a graph that was
    merged before is absorbed. *)
Theorem graph_Merge_pointwise g o :
  vertices (Merge g o) = LWWElementSet.Merge (vertices g) (vertices o)
  ∧ (∀ from,
       edges (Merge g o) !! from =
         match edges g !! from, edges o !! from with
         | Some s1, Some s2 => Some (LWWElementSet.Merge s1 s2)
         | Some s1, None => Some s1
         | None, Some s2 => Some s2
         | None, None => None
         end)
  ∧ LWWElementGraph.eqb (Merge g LWWElementGraph.empty) g = true
  ∧ LWWElementGraph.eqb (Merge LWWElementGraph.empty g) g = true
  ∧ LWWElementGraph.eqb (Merge (Merge g o) o) (Merge g o) = true.
Proof.
  split_and!.
  - by rewrite graph_Merge_join.
  - intros from. rewrite lookup_edges_Merge.
    by destruct (edges g !! from), (edges o !! from).
  - apply graph_eqb_eq, graph_Merge_empty_r.
  - apply graph_eqb_eq, graph_Merge_empty_l.
  - apply graph_eqb_eq. by rewrite graph_Merge_assoc, graph_Merge_idemp.
Qed.

(** X10.  The graph's [operator==] holds exactly when the two graphs
    have equal vertex sets and, for every source, equal edge sets or
    none; in particular it tells apart a graph with an empty edge set for
    a source from a graph with no edge set for it. *)
Theorem graph_eqb_extensional g1 g2 :
  (LWWElementGraph.eqb g1 g2 = true ↔
     LWWElementSet.eqb (vertices g1) (vertices g2) = true
     ∧ ∀ from,
         match edges g1 !! from, edges g2 !! from with
         | Some s1, Some s2 => LWWElementSet.eqb s1 s2 = true
         | None, None => True
         | _, _ => False
         end)
  ∧ (∀ from, edges g1 !! from = None →
       LWWElementGraph.eqb g1
         (LWWElementGraph.mk (vertices g1) (<[from := LWWElementSet.empty]> (edges g1)))
       = false).
Proof.
  split.
  - rewrite graph_eqb_eq. split.
    + intros ->. split; [by apply set_eqb_eq|]. intros from.
      destruct (edges g2 !! from); [by apply set_eqb_eq|done].
    + intros [Hv%set_eqb_eq He]. destruct g1 as [v1 e1], g2 as [v2 e2].
      simpl in *. f_equal; [done|]. apply map_eq. intros from.
      specialize (He from).
      destruct (e1 !! from), (e2 !! from); try done.
      by apply set_eqb_eq in He as ->.
  - intros from Hnone. apply not_true_is_false. intros Heq%graph_eqb_eq.
    apply (f_equal (λ g, edges g !! from)) in Heq. simpl in Heq.
    by rewrite Hnone, lookup_insert_eq in Heq.
Qed.
End graph_replication.

Lemma graph_histories_converge_witness :
  [GraphHistory.OpAddEdge 0 1 2; GraphHistory.OpAddVertex 0 0]
    ≡ₚ [GraphHistory.OpAddVertex 0 0; GraphHistory.OpAddEdge 0 1 2]
  ∧ LWWElementGraph.eqb
      (foldl GraphHistory.apply LWWElementGraph.empty
         [GraphHistory.OpAddEdge 0 1 2; GraphHistory.OpAddVertex 0 0])
      (foldl GraphHistory.apply LWWElementGraph.empty
         [GraphHistory.OpAddVertex 0 0; GraphHistory.OpAddEdge 0 1 2])
    = true.
Proof.
  assert (Hp : [GraphHistory.OpAddEdge 0 1 2; GraphHistory.OpAddVertex 0 0]
               ≡ₚ [GraphHistory.OpAddVertex (E:=Z) 0 0; GraphHistory.OpAddEdge 0 1 2])
    by apply perm_swap.
  split; [exact Hp|].
  exact (proj1 (graph_histories_converge LWWElementGraph.empty) _ _ Hp).
Defined.

Lemma graph_eqb_extensional_witness :
  LWWElementGraph.edges Tests.two_vertices !! 0 = None
  ∧ LWWElementGraph.eqb Tests.two_vertices
      (LWWElementGraph.mk (LWWElementGraph.vertices Tests.two_vertices)
         (<[0 := LWWElementSet.empty]> (LWWElementGraph.edges Tests.two_vertices)))
    = false.
Proof.
  split; [reflexivity|].
  apply (proj2 (graph_eqb_extensional Tests.two_vertices Tests.two_vertices)).
  reflexivity.
Defined.

(** ** Updates and what the queries see *)

Section updates.
Import LWWElementSet LWWElementGraph.
Context {E : Type} `{Countable E}.
Implicit Types (g o : LWWElementGraph.t E) (s : LWWElementSet.t E).

Lemma present_true s e :
  present s e = true ↔
  ∃ a, add s !! e = Some a ∧ ∀ r, remove s !! e = Some r → r < a.
Proof.
  unfold present. destruct (add s !! e) as [a|], (remove s !! e) as [r|]; split.
  - intros Hlt%bool_decide_eq_true. exists a. split; [done|]. by intros ? [= <-].
  - intros (a' & [= <-] & Hr). apply bool_decide_eq_true. by apply Hr.
  - intros _. exists a. by split.
  - done.
  - done.
  - by intros (? & ? & _).
  - done.
  - by intros (? & ? & _).
Qed.

(** The validity predicate, spelled out on the recorded timestamps. *)
Lemma edge_valid_true g from to :
  edge_valid g from to = true ↔
  ∃ s te af at',
    edges g !! from = Some s ∧ add s !! to = Some te
    ∧ add (vertices g) !! from = Some af ∧ add (vertices g) !! to = Some at'
    ∧ (∀ r, remove s !! to = Some r → r < te)
    ∧ (∀ r, remove (vertices g) !! from = Some r → r < af ∧ r < te)
    ∧ (∀ r, remove (vertices g) !! to = Some r → r < at' ∧ r < te)
    ∧ af ≤ te ∧ at' ≤ te.
Proof.
  unfold edge_valid, present, dominated, not_before. split.
  - destruct (edges g !! from) as [s|] eqn:Hs; [|done].
    destruct (add s !! to) as [te|] eqn:Hte; [|done].
    destruct (add (vertices g) !! from) as [af|] eqn:Haf; [|by rewrite ?andb_false_r].
    destruct (add (vertices g) !! to) as [at'|] eqn:Hat;
      [|by destruct (remove s !! to), (remove (vertices g) !! from);
           rewrite ?andb_false_r].
    intros Hv. exists s, te, af, at'.
    destruct (remove s !! to) as [re|], (remove (vertices g) !! from) as [rf|],
      (remove (vertices g) !! to) as [rt|]; simpl in Hv;
      repeat (case_bool_decide; simpl in Hv); try done;
      split_and!; try done; try (intros ? [= <-]); lia.
  - intros (s & te & af & at' & -> & -> & -> & -> & Hre & Hrf & Hrt & Hf & Ht).
    destruct (remove s !! to) as [re|], (remove (vertices g) !! from) as [rf|],
      (remove (vertices g) !! to) as [rt|]; simpl;
      try specialize (Hre _ eq_refl); try specialize (Hrf _ eq_refl);
      try specialize (Hrt _ eq_refl);
      repeat (case_bool_decide; simpl); try done; lia.
Qed.

Lemma ContainsEdge_true g from to :
  ContainsEdge g from to = Ok true ↔ edge_valid g from to = true.
Proof. rewrite ContainsEdge_edge_valid. split; [by intros [= ->]|by intros ->]. Qed.

(** X11.  After [AddVertex(e, t)] the vertex [e] is in the graph exactly
    when every recorded removal of [e] is older than [t] or than the
    add-timestamp recorded before.  After [RemoveVertex(e, t)] it is in
    the graph exactly when it was and an add-timestamp later than [t] is
    recorded.  Neither changes whether another vertex is in the graph. *)
Theorem ContainsVertex_after_update g e ts :
  (ContainsVertex (AddVertex g e ts) e = Ok true ↔
     ∀ r, remove (vertices g) !! e = Some r →
          r < ts ∨ ∃ a, add (vertices g) !! e = Some a ∧ r < a)
  ∧ (ContainsVertex (RemoveVertex g e ts) e = Ok true ↔
       ContainsVertex g e = Ok true
       ∧ ∃ a, add (vertices g) !! e = Some a ∧ ts < a)
  ∧ (∀ e', e' ≠ e →
       ContainsVertex (AddVertex g e ts) e' = ContainsVertex g e'
       ∧ ContainsVertex (RemoveVertex g e ts) e' = ContainsVertex g e').
Proof.
  unfold ContainsVertex, AddVertex, RemoveVertex. simpl.
  rewrite !Contains_present. split_and!.
  - split.
    + intros [= (a & Ha & Hr)%present_true] r Hrem.
      rewrite Add_upsert in Ha, Hr. simpl in Ha, Hr.
      rewrite lookup_upsert, decide_True in Ha by done.
      specialize (Hr r Hrem).
      destruct (add (vertices g) !! e) as [a0|]; simpl in Ha; injection Ha as <-.
      * destruct (decide (r < ts)); [by left|]. right. exists a0. split; [done|lia].
      * by left.
    + intros Hr. f_equal. apply present_true.
      rewrite Add_upsert. simpl. rewrite lookup_upsert, decide_True by done.
      destruct (add (vertices g) !! e) as [a0|]; simpl; eexists; split; try done;
        intros r Hrem; destruct (Hr r Hrem) as [?|(a & [= <-] & ?)]; try lia; done.
  - split.
    + intros [= (a & Ha & Hr)%present_true].
      rewrite Remove_upsert in Ha, Hr. simpl in Ha, Hr.
      rewrite lookup_upsert, decide_True in Hr by done.
      split.
      * f_equal. apply present_true. exists a. split; [done|]. intros r Hrem.
        rewrite Hrem in Hr. simpl in Hr. specialize (Hr _ eq_refl). lia.
      * exists a. split; [done|].
        destruct (remove (vertices g) !! e) as [r|]; simpl in Hr;
          specialize (Hr _ eq_refl); lia.
    + intros [[= (a & Ha & Hr)%present_true] (a' & Ha' & Hlt)].
      assert (a' = a) as -> by congruence.
      f_equal. apply present_true. rewrite Remove_upsert. simpl.
      exists a. split; [done|]. rewrite lookup_upsert, decide_True by done.
      destruct (remove (vertices g) !! e) as [r|]; simpl; intros ? [= <-];
        [specialize (Hr _ eq_refl)|]; lia.
  - intros e' Hne. rewrite !Contains_present, Add_upsert, Remove_upsert.
    unfold present. cbn [add remove].
    by rewrite !lookup_upsert, !decide_False by done.
Qed.

(** X12.  [AddEdge(from, to, t)] makes the edge visible when both
    endpoints are vertices of the graph and [t] is not before their
    add-timestamps and after every removal recorded for them and for the
    edge.  [RemoveEdge(from, to, t)] hides the edge when [t] is not before
    its recorded add-timestamp, whatever the vertices.  Neither changes
    whether another edge is visible. *)
Theorem ContainsEdge_after_update g from to ts :
  (ContainsVertex g from = Ok true → ContainsVertex g to = Ok true →
   (∀ a, add (vertices g) !! from = Some a → a ≤ ts) →
   (∀ a, add (vertices g) !! to = Some a → a ≤ ts) →
   (∀ r, remove (vertices g) !! from = Some r → r < ts) →
   (∀ r, remove (vertices g) !! to = Some r → r < ts) →
   (∀ s r, edges g !! from = Some s → remove s !! to = Some r → r < ts) →
   ContainsEdge (AddEdge g from to ts) from to = Ok true)
  ∧ ((∀ s a, edges g !! from = Some s → add s !! to = Some a → a ≤ ts) →
     ContainsEdge (RemoveEdge g from to ts) from to = Ok false)
  ∧ (∀ from' to', (from', to') ≠ (from, to) →
       ContainsEdge (AddEdge g from to ts) from' to' = ContainsEdge g from' to'
       ∧ ContainsEdge (RemoveEdge g from to ts) from' to' = ContainsEdge g from' to').
Proof.
  split_and!.
  - unfold ContainsVertex. rewrite !Contains_present.
    intros [= (af & Haf & Hrf)%present_true] [= (at' & Hat & Hrt)%present_true]
      Hf Ht Hrf' Hrt' Hre.
    apply ContainsEdge_true, edge_valid_true.
    unfold AddEdge. simpl. rewrite lookup_insert_eq.
    set (s' := Add (subscript LWWElementSet.empty (edges g) from) to ts).
    assert (Hadd : ∃ te, add s' !! to = Some te ∧ ts ≤ te).
    { unfold s'. rewrite Add_upsert. cbn [add].
      rewrite lookup_upsert, decide_True by done.
      destruct (add (subscript LWWElementSet.empty (edges g) from) !! to) as [a|];
        [exists (Z.max a ts)|exists ts]; (split; [done|lia]). }
    assert (Hrem : ∀ r, remove s' !! to = Some r → r < ts).
    { unfold s'. rewrite Add_upsert. cbn [remove]. unfold subscript. intros r.
      destruct (edges g !! from) as [s|] eqn:Hs; simpl; [by apply Hre|].
      by rewrite lookup_empty. }
    destruct Hadd as (te & Hte & Hle).
    specialize (Hf _ Haf). specialize (Ht _ Hat).
    exists s', te, af, at'. split_and!; try done; try lia.
    + intros r Hr. specialize (Hrem _ Hr). lia.
    + intros r Hr. specialize (Hrf _ Hr). specialize (Hrf' _ Hr). lia.
    + intros r Hr. specialize (Hrt _ Hr). specialize (Hrt' _ Hr). lia.
  - intros Ha. rewrite ContainsEdge_edge_valid. f_equal.
    apply not_true_is_false. intros (s' & te & _ & _ & Hs' & Hte & _ & _ & Hre & _)%edge_valid_true.
    unfold RemoveEdge in Hs'. simpl in Hs'. rewrite lookup_insert_eq in Hs'.
    injection Hs' as <-. rewrite Remove_upsert in Hte, Hre. simpl in Hte, Hre.
    rewrite lookup_upsert, decide_True in Hre by done. unfold subscript in *.
    destruct (edges g !! from) as [s|] eqn:Hs; simpl in *.
    + specialize (Ha _ _ eq_refl Hte).
      destruct (remove s !! to) as [r|]; simpl in Hre; specialize (Hre _ eq_refl); lia.
    + by rewrite lookup_empty in Hte.
  - intros from' to' Hne. rewrite !ContainsEdge_edge_valid.
    unfold edge_valid, AddEdge, RemoveEdge. simpl.
    destruct (decide (from' = from)) as [->|Hfrom].
    + assert (to' ≠ to) by congruence.
      rewrite !lookup_insert_eq, Add_upsert, Remove_upsert. unfold present. simpl.
      rewrite !lookup_upsert, !decide_False by done. unfold subscript.
      destruct (edges g !! from) as [s|]; simpl; [done|].
      by rewrite !lookup_empty.
    + by rewrite !lookup_insert_ne by done.
Qed.

(** X13.  A visible edge joins two vertices of the graph: when
    [ContainsEdge(from, to)] holds, so do [ContainsVertex(from)] and
    [ContainsVertex(to)], and the edge set of [from] contains [to]. *)
Theorem ContainsEdge_needs_vertices g from to :
  ContainsEdge g from to = Ok true →
  ContainsVertex g from = Ok true ∧ ContainsVertex g to = Ok true
  ∧ ∃ s, edges g !! from = Some s ∧ Contains s to = Ok true.
Proof.
  intros (s & te & af & at' & Hs & Hte & Haf & Hat & Hre & Hrf & Hrt & _)
    %ContainsEdge_true%edge_valid_true.
  unfold ContainsVertex. rewrite !Contains_present. split_and!.
  - f_equal. apply present_true. exists af. split; [done|]. intros r Hr.
    by destruct (Hrf r Hr).
  - f_equal. apply present_true. exists at'. split; [done|]. intros r Hr.
    by destruct (Hrt r Hr).
  - exists s. split; [done|]. rewrite Contains_present. f_equal.
    apply present_true. by exists te.
Qed.

(** X14.  An edge that is visible in two graphs is visible in their
    merge, and a vertex on which two graphs agree is in their merge
    exactly when it is in them. *)
Theorem Merge_keeps_agreement g o :
  (∀ from to,
     ContainsEdge g from to = Ok true → ContainsEdge o from to = Ok true →
     ContainsEdge (Merge g o) from to = Ok true)
  ∧ (∀ e (b : bool),
       ContainsVertex g e = Ok b → ContainsVertex o e = Ok b →
       ContainsVertex (Merge g o) e = Ok b).
Proof.
  split.
  - intros from to
      (s1 & te1 & af1 & at1 & Hs1 & Hte1 & Haf1 & Hat1 & Hre1 & Hrf1 & Hrt1 & Hf1 & Ht1)
        %ContainsEdge_true%edge_valid_true
      (s2 & te2 & af2 & at2 & Hs2 & Hte2 & Haf2 & Hat2 & Hre2 & Hrf2 & Hrt2 & Hf2 & Ht2)
        %ContainsEdge_true%edge_valid_true.
    apply ContainsEdge_true, edge_valid_true.
    exists (LWWElementSet.Merge s1 s2), (Z.max te1 te2), (Z.max af1 af2), (Z.max at1 at2).
    rewrite graph_Merge_join. simpl. unfold map_join.
    rewrite lookup_union_with, Hs1, Hs2, !lookup_add_Merge, !lookup_remove_Merge,
      Hte1, Hte2, Haf1, Haf2, Hat1, Hat2. simpl.
    split_and!; try done; try lia.
    + intros r. destruct (remove s1 !! to) as [r1|], (remove s2 !! to) as [r2|];
        simpl; intros [= <-];
        try specialize (Hre1 _ eq_refl); try specialize (Hre2 _ eq_refl); lia.
    + intros r. destruct (remove (vertices g) !! from) as [r1|],
        (remove (vertices o) !! from) as [r2|]; simpl; intros [= <-];
        try specialize (Hrf1 _ eq_refl); try specialize (Hrf2 _ eq_refl); lia.
    + intros r. destruct (remove (vertices g) !! to) as [r1|],
        (remove (vertices o) !! to) as [r2|]; simpl; intros [= <-];
        try specialize (Hrt1 _ eq_refl); try specialize (Hrt2 _ eq_refl); lia.
  - intros e b. unfold ContainsVertex. rewrite graph_Merge_join. simpl.
    rewrite !Contains_present. intros [= Hg] [= Ho]. f_equal.
    by apply present_Merge_agree.
Qed.
End updates.

(** ** The answers of the queries *)

Section answers.
Import LWWElementSet LWWElementGraph.
Context {E : Type} `{Countable E} (E0 : E).
Context (visit : E → gmap E Z → list (E * Z)).
Hypothesis visit_enumerates : ∀ e (m : gmap E Z), visit e m ≡ₚ map_to_list m.
Implicit Types (g : LWWElementGraph.t E) (s : LWWElementSet.t E).

Lemma edge_endpoints g u v :
  ContainsEdge g u v = Ok true →
  ContainsVertex g u = Ok true ∧ ContainsVertex g v = Ok true.
Proof.
  intros (s & te & af & at' & _ & _ & Haf & Hat & _ & Hrf & Hrt & _)
    %ContainsEdge_true%edge_valid_true.
  unfold ContainsVertex. rewrite !Contains_present.
  split; f_equal; apply present_true.
  - exists af. split; [done|]. intros r Hr. by destruct (Hrf r Hr).
  - exists at'. split; [done|]. intros r Hr. by destruct (Hrt r Hr).
Qed.

Lemma path_ends g u w p : path g u w p → head p = Some u ∧ last p = Some w.
Proof.
  induction 1 as [v|u v w p Hedge Hp [Hh Hl]]; [done|]. split; [done|].
  destruct p as [|x p]; [done|]. by rewrite last_cons_cons.
Qed.

Lemma path_vertices g u w p :
  path g u w p → ContainsVertex g u = Ok true →
  Forall (λ v, ContainsVertex g v = Ok true) p.
Proof.
  induction 1 as [v|u v w p Hedge Hp IH]; intros Hu.
  - by apply Forall_singleton.
  - apply Forall_cons. split; [done|]. apply IH.
    by apply edge_endpoints in Hedge as [_ ?].
Qed.

(** X15.  In whatever order the edge sets and their entries are
    visited, [AllConnectedVertices(e)] returns, and what it returns is the
    set of the keys joined to [e] by a visible edge in either direction.
    Its members are vertices of the graph, and so is [e] when it has any. *)
Theorem AllConnectedVertices_neighbours (le : list (E * LWWElementSet.t E)) g e :
  le ≡ₚ map_to_list (edges g) →
  ∃ r, AllConnectedVertices_along visit le g e = Ok r
       ∧ (∀ x, x ∈ r ↔ ContainsEdge g e x = Ok true ∨ ContainsEdge g x e = Ok true)
       ∧ (∀ x, x ∈ r → ContainsVertex g x = Ok true ∧ ContainsVertex g e = Ok true).
Proof.
  intros Hle.
  destruct (AllConnectedVertices_along_spec visit visit_enumerates le g e Hle)
    as (r & Hr & Hmem).
  exists r. split_and!; [done..|].
  intros x [Hedge|Hedge]%Hmem; apply edge_endpoints in Hedge as [? ?]; by split.
Qed.

(** X16.  A key that is not a vertex of the graph, never added or
    removed last, has no visible edge in either direction and no
    neighbour.  So [RemoveVertex(e, t)] with [t] not before the recorded
    add-timestamp of [e] hides every edge of [e]. *)
Theorem absent_vertex_is_isolated g e :
  (ContainsVertex g e = Ok false →
     (∀ x, ContainsEdge g e x = Ok false ∧ ContainsEdge g x e = Ok false)
     ∧ AllConnectedVertices g e = Ok ∅)
  ∧ (∀ ts x, (∀ a, add (vertices g) !! e = Some a → a ≤ ts) →
       ContainsEdge (RemoveVertex g e ts) e x = Ok false
       ∧ ContainsEdge (RemoveVertex g e ts) x e = Ok false).
Proof.
  assert (Hiso : ∀ g', ContainsVertex g' e = Ok false →
            ∀ x, ContainsEdge g' e x = Ok false ∧ ContainsEdge g' x e = Ok false).
  { intros g' Habs x. rewrite !ContainsEdge_edge_valid.
    split; f_equal; apply not_true_is_false;
      intros [Hu Hv]%ContainsEdge_true%edge_endpoints; congruence. }
  split.
  - intros Habs. split; [by apply Hiso|].
    destruct (AllConnectedVertices_spec g e) as (r & -> & Hmem). f_equal.
    apply set_eq. intros x. rewrite Hmem. split.
    + destruct (Hiso g Habs x). intros [?|?]; congruence.
    + intros Hx. by apply elem_of_empty in Hx.
  - intros ts x Hle. apply Hiso.
    unfold ContainsVertex, RemoveVertex. simpl. rewrite Contains_present. f_equal.
    apply not_true_is_false. intros (a & Ha & Hr)%present_true.
    rewrite Remove_upsert in Ha, Hr. simpl in Ha, Hr.
    rewrite lookup_upsert, decide_True in Hr by done.
    specialize (Hle _ Ha).
    destruct (remove (vertices g) !! e) as [r|]; simpl in Hr;
      specialize (Hr _ eq_refl); lia.
Qed.

(** With edge sets for all keys that can be reached, the loop does not
    throw; when it throws, the key it failed on can be reached. *)
Lemma bfs_throw_reachable g from to fuel queue previous x :
  search_inv g from queue previous →
  bfs E0 visit fuel g from to queue previous = Some (Throw x) →
  ∃ v p, path g from v p ∧ v ≠ to ∧ edges g !! v = None.
Proof.
  revert queue previous.
  induction fuel as [|fuel IH]; intros queue previous Hinv; [done|].
  destruct queue as [|e queue]; cbn [bfs]; [done|].
  assert (He : is_Some (previous !! e)).
  { destruct Hinv as (_ & Hq & _). apply Hq. by left. }
  case_decide as Hto.
  - by destruct (walk_back _ _ _ _ _ _).
  - unfold map_at. destruct (edges g !! e) as [s|] eqn:Hs; cbn [bind].
    + assert (Hinv' : search_inv g from queue previous).
      { destruct Hinv as (Hf & Hq & Htr & Hdom).
        unfold search_inv. split_and!; [done| |done..].
        intros v Hv. apply Hq. by right. }
      destruct (foldlM_expand_inv g from e (visit e (GetAdd s)) queue previous)
        as (q' & p' & -> & Hinv'' & Hsz); [done..| |].
      { apply Forall_forall. intros [k ts] Hin.
        rewrite visit_enumerates in Hin. apply elem_of_map_to_list in Hin.
        apply elem_of_targets. exists e, s. split; [done|]. by eexists. }
      by apply IH.
    + intros _. destruct Hinv as (_ & _ & Htr & _).
      destruct (Htr e He) as (l & Hl & _).
      exists e, (rev l). split_and!; [by eapply trail_path|done..].
Qed.

(** When the loop returns the empty sequence, every key that can be
    reached was expanded, and so has an edge set. *)
Lemma bfs_empty_expanded g from to fuel queue previous :
  bfs_inv g from to queue previous →
  (∀ v, is_Some (previous !! v) → v ∈ queue ∨ is_Some (edges g !! v)) →
  bfs E0 visit fuel g from to queue previous = Some (Ok []) →
  ∀ v p, path g from v p → is_Some (edges g !! v).
Proof.
  revert queue previous.
  induction fuel as [|fuel IH]; intros queue previous Hbfs Hexp; [done|].
  pose proof Hbfs as (Hinv & Hlay & Hmin & Hclosed).
  destruct queue as [|e queue]; cbn [bfs].
  { intros _ v p Hp.
    assert (Hcl : ∀ v, is_Some (previous !! v) → closed g previous v ∧ v ≠ to).
    { intros v' Hv. destruct (Hclosed v' Hv) as [Hq|]; [|done].
      by apply elem_of_nil in Hq. }
    destruct Hinv as (Hfrom & _).
    assert (Hv : is_Some (previous !! v)).
    { eapply closed_reach; [done..|]. by eexists. }
    destruct (Hexp v Hv) as [Hq|]; [|done]. by apply elem_of_nil in Hq. }
  assert (He : is_Some (previous !! e)).
  { destruct Hinv as (_ & Hq & _). apply Hq. by left. }
  case_decide as Hto.
  - subst e. destruct Hinv as (_ & _ & Htr & _).
    destruct (Htr to He) as (l & Hl & Hlen).
    rewrite (walk_back_trail E0 g from previous to l) by (done || lia). simpl.
    intros [= Hrev]. apply trail_path_length in Hl.
    apply (f_equal length) in Hrev. rewrite length_rev in Hrev. simpl in Hrev. lia.
  - unfold map_at. destruct (edges g !! e) as [s|] eqn:Hs; cbn [bind]; [|done].
    destruct (foldlM (expand g e) (queue, previous) (visit e (GetAdd s)))
      as [[q' p']|] eqn:Hfold; [|done].
    apply IH; [by eapply bfs_inv_step|].
    apply foldlM_expand_spec in Hfold as (news & -> & Hext & Hnews & Hvis & Hadj).
    intros v [Hv|Hn]%Hvis; [|left; apply elem_of_app; by right].
    destruct (Hexp v Hv) as [[->|Hq]%elem_of_cons|Hset].
    + right. by eexists.
    + left. apply elem_of_app. by left.
    + by right.
Qed.

(** X17.  For every order in which the edge sets are visited, [AnyPath]
    returns.  A sequence that it returns is empty exactly when an end
    point is not a vertex of the graph or no path of visible edges leads
    from [from] to [to]; otherwise it starts with [from], ends with [to],
    consists of vertices of the graph joined by visible edges, and no path
    from [from] to [to] is shorter. *)
Theorem AnyPath_answers g from to :
  ∃ r, AnyPath E0 visit g from to = Some r
    ∧ ∀ p, r = Ok p →
        (p = []
         ∧ (ContainsVertex g from = Ok false ∨ ContainsVertex g to = Ok false
            ∨ ∀ p', ¬ path g from to p'))
        ∨ (ContainsVertex g from = Ok true ∧ ContainsVertex g to = Ok true
           ∧ path g from to p
           ∧ head p = Some from ∧ last p = Some to
           ∧ Forall (λ v, ContainsVertex g v = Ok true) p
           ∧ ∀ p', path g from to p' → (length p ≤ length p')%nat).
Proof.
  destruct (AnyPath_correct E0 visit visit_enumerates g from to) as (r & Hr & Hok & _).
  exists r. split; [done|]. intros p Hp.
  destruct (Hok p Hp) as [[-> Habs]|(Hf & Ht & Hpath & Hmin)]; [by left|right].
  destruct (path_ends _ _ _ _ Hpath) as [Hh Hl].
  split_and!; try done. by eapply path_vertices.
Qed.

(** X18.  [AnyPath] throws only when a key that can be reached from
    [from] along visible edges, other than [to], has no edge set: when
    every such key has one, it returns a sequence. *)
Theorem AnyPath_throws_only_without_edge_set g from to :
  (AnyPath E0 visit g from to = Some (Throw out_of_range) →
     ∃ v p, path g from v p ∧ v ≠ to ∧ edges g !! v = None)
  ∧ ((∀ v p, path g from v p → v ≠ to → is_Some (edges g !! v)) →
     ∃ p, AnyPath E0 visit g from to = Some (Ok p)).
Proof.
  assert (Hthrow : AnyPath E0 visit g from to = Some (Throw out_of_range) →
            ∃ v p, path g from v p ∧ v ≠ to ∧ edges g !! v = None).
  { unfold AnyPath, AnyPath_fuel, ContainsVertex. rewrite !Contains_present.
    destruct (present (vertices g) from), (present (vertices g) to); cbn -[bfs];
      try done.
    apply bfs_throw_reachable, search_inv_init. }
  split; [done|]. intros Hsets.
  destruct (AnyPath_returns E0 visit visit_enumerates g from to) as ([p|[]] & Hr & _).
  - by exists p.
  - destruct (Hthrow Hr) as (v & p & Hp & Hne & Hnone).
    destruct (Hsets v p Hp Hne) as [s Hs]. congruence.
Qed.

(** X19.  Between two vertices of the graph that no path of visible
    edges joins, [AnyPath] throws exactly when some key that can be reached
    from [from] has no edge set, and returns the empty sequence
    otherwise. *)
Theorem AnyPath_without_path g from to :
  ContainsVertex g from = Ok true → ContainsVertex g to = Ok true →
  (∀ p, ¬ path g from to p) →
  (AnyPath E0 visit g from to = Some (Throw out_of_range) ↔
     ∃ v p, path g from v p ∧ edges g !! v = None)
  ∧ (AnyPath E0 visit g from to = Some (Ok []) ↔
       ∀ v p, path g from v p → is_Some (edges g !! v)).
Proof.
  intros Hf Ht Hno.
  assert (Hne : ∀ v p, path g from v p → v ≠ to).
  { intros v p Hp ->. by apply (Hno p). }
  assert (Hempty : AnyPath E0 visit g from to = Some (Ok []) →
            ∀ v p, path g from v p → is_Some (edges g !! v)).
  { unfold AnyPath, AnyPath_fuel. rewrite Hf, Ht. cbn -[bfs].
    apply bfs_empty_expanded; [apply bfs_inv_init|].
    intros v [<-|Hv]%lookup_insert_is_Some'; [left; by left|].
    rewrite lookup_empty in Hv. by destruct Hv. }
  assert (Hsets : (∀ v p, path g from v p → is_Some (edges g !! v)) →
            AnyPath E0 visit g from to = Some (Ok [])).
  { intros Hall.
    destruct (AnyPath_correct E0 visit visit_enumerates g from to)
      as (r & Hr & Hok & Hnt).
    destruct r as [p|[]].
    - destruct (Hok p eq_refl) as [[-> _]|(_ & _ & Hp & _)]; [done|].
      by destruct (Hno p).
    - assert (Hthrow : ∃ v p, path g from v p ∧ v ≠ to ∧ edges g !! v = None).
      { revert Hr. unfold AnyPath, AnyPath_fuel. rewrite Hf, Ht. cbn -[bfs].
        apply bfs_throw_reachable, search_inv_init. }
      destruct Hthrow as (v & p & Hp & _ & Hnone).
      destruct (Hall v p Hp) as [s Hs]. congruence. }
  split; split.
  - unfold AnyPath, AnyPath_fuel. rewrite Hf, Ht. cbn -[bfs].
    intros (v & p & Hp & _ & Hnone)%bfs_throw_reachable; [|apply search_inv_init].
    by exists v, p.
  - intros (v & p & Hp & Hnone).
    destruct (AnyPath_correct E0 visit visit_enumerates g from to)
      as (r & Hr & Hok & _).
    destruct r as [q|[]]; [|done].
    destruct (Hok q eq_refl) as [[-> _]|(_ & _ & Hq & _)]; [|by destruct (Hno q)].
    destruct (Hempty Hr v p Hp) as [s Hs]. congruence.
  - apply Hempty.
  - apply Hsets.
Qed.
End answers.

Section orders.
Import LWWElementSet LWWElementGraph.
Context {E : Type} `{Countable E} (E0 : E).
Implicit Types (g o : LWWElementGraph.t E) (s : LWWElementSet.t E).

(** X20.  The order in which the edge sets are visited can change which
    path [AnyPath] returns, not how long it is: two sequences returned for
    the same graph and end points under two visiting orders have the same
    length. *)
Theorem AnyPath_length_independent
    (visit visit' : E → gmap E Z → list (E * Z)) g from to p p' :
  (∀ e (m : gmap E Z), visit e m ≡ₚ map_to_list m) →
  (∀ e (m : gmap E Z), visit' e m ≡ₚ map_to_list m) →
  AnyPath E0 visit g from to = Some (Ok p) →
  AnyPath E0 visit' g from to = Some (Ok p') →
  length p = length p'.
Proof.
  intros Hv Hv' Hp Hp'.
  destruct (AnyPath_correct E0 visit Hv g from to) as (r & Hr & Hok & _).
  destruct (AnyPath_correct E0 visit' Hv' g from to) as (r' & Hr' & Hok' & _).
  rewrite Hp in Hr. injection Hr as <-. rewrite Hp' in Hr'. injection Hr' as <-.
  destruct (Hok p eq_refl) as [[-> Habs]|(Hf & Ht & Hpath & Hmin)],
    (Hok' p' eq_refl) as [[-> Habs']|(Hf' & Ht' & Hpath' & Hmin')].
  - done.
  - destruct Habs as [?|[?|Hno]]; [congruence..|]. by destruct (Hno p').
  - destruct Habs' as [?|[?|Hno]]; [congruence..|]. by destruct (Hno p).
  - specialize (Hmin _ Hpath'). specialize (Hmin' _ Hpath). lia.
Qed.

(** X21.  Two answers of [AnyPath] read no edge set, and so never
    throw, whatever the graph and the visiting order: the empty sequence
    when an end point is not a vertex of the graph, and the one-element
    sequence from a vertex of the graph to itself. *)
Theorem AnyPath_without_search (visit : E → gmap E Z → list (E * Z)) g :
  (∀ from to,
     ContainsVertex g from = Ok false ∨ ContainsVertex g to = Ok false →
     AnyPath E0 visit g from to = Some (Ok []))
  ∧ (∀ v, ContainsVertex g v = Ok true → AnyPath E0 visit g v v = Some (Ok [v])).
Proof.
  split.
  - intros from to. apply AnyPath_absent.
  - intros v. apply AnyPath_self.
Qed.

(** X22.  The order in which the loops of [Merge] visit the maps of the
    other set, or the edge sets of the other graph, does not change the
    merged state. *)
Theorem Merge_order_irrelevant :
  (∀ (la lr : list (E * Z)) s s',
     la ≡ₚ map_to_list (add s') → lr ≡ₚ map_to_list (remove s') →
     LWWElementSet.Merge_along la lr s = LWWElementSet.Merge s s')
  ∧ (∀ (le : list (E * LWWElementSet.t E)) g o,
       le ≡ₚ map_to_list (edges o) →
       Merge_edges le (edges g) = edges (Merge g o)).
Proof.
  split.
  - intros la lr s s' Ha Hr. by rewrite Merge_join, (Merge_along_join la lr s s').
  - intros le g o Hle. rewrite graph_Merge_join. simpl. by apply Merge_edges_join.
Qed.
End orders.

(** ** The hypotheses hold on the graphs of [main.cpp] *)

Section samples.
Import LWWElementSet LWWElementGraph.

Lemma in_map_order_enumerates :
  ∀ e (m : gmap Z Z), in_map_order e m ≡ₚ map_to_list m.
Proof. reflexivity. Qed.

Lemma reverse_order_enumerates :
  ∀ (e : Z) (m : gmap Z Z), reverse (map_to_list m) ≡ₚ map_to_list m.
Proof. intros e m. apply reverse_Permutation. Qed.

Lemma two_vertices_no_path v p : path Tests.two_vertices 0 v p → v = 0.
Proof.
  inversion 1 as [|u w x q Hedge Hq]; [done|]. vm_compute in Hedge. discriminate.
Qed.

(** In the diamond, every vertex but 3 has an edge set. *)
Lemma diamond_edge_sets v p :
  path Tests.diamond 0 v p → v ≠ 3 → is_Some (edges Tests.diamond !! v).
Proof.
  intros Hp Hne.
  assert (Hv : ContainsVertex Tests.diamond v = Ok true).
  { pose proof (path_vertices _ _ _ _ Hp eq_refl) as Hall.
    destruct (path_ends _ _ _ _ Hp) as [_ Hl].
    apply last_Some in Hl as [l' ->].
    by apply Forall_app in Hall as [_ [? _]%Forall_cons]. }
  unfold ContainsVertex in Hv. rewrite Contains_present in Hv.
  injection Hv as (a & Ha & _)%present_true.
  apply elem_of_map_to_list in Ha.
  remember (map_to_list (add (vertices Tests.diamond))) as l eqn:Hl.
  vm_compute in Hl. subst l.
  repeat (apply elem_of_cons in Ha as [[= -> ->]|Ha]); try done;
    [by eexists..|by apply elem_of_nil in Ha].
Qed.
End samples.

Lemma ContainsVertex_after_update_witness :
  LWWElementGraph.ContainsVertex (LWWElementGraph.AddVertex Tests.readded 1 7) 1 = Ok true.
Proof.
  apply (proj1 (ContainsVertex_after_update Tests.readded 1 7)).
  intros r Hr. vm_compute in Hr. injection Hr as <-. left. lia.
Defined.

Lemma ContainsEdge_after_update_witness :
  LWWElementGraph.ContainsVertex Tests.two_vertices 0 = Ok true
  ∧ LWWElementGraph.ContainsVertex Tests.two_vertices 1 = Ok true
  ∧ LWWElementGraph.ContainsEdge
      (LWWElementGraph.AddEdge Tests.two_vertices 0 1 3) 0 1 = Ok true.
Proof.
  split_and!; [reflexivity..|].
  apply (proj1 (ContainsEdge_after_update Tests.two_vertices 0 1 3)).
  - reflexivity.
  - reflexivity.
  - intros a Ha. vm_compute in Ha. injection Ha as <-. lia.
  - intros a Ha. vm_compute in Ha. injection Ha as <-. lia.
  - intros r Hr. vm_compute in Hr. discriminate.
  - intros r Hr. vm_compute in Hr. discriminate.
  - intros s r Hs. vm_compute in Hs. discriminate.
Defined.

Lemma ContainsEdge_needs_vertices_witness :
  LWWElementGraph.ContainsEdge Tests.diamond 0 1 = Ok true
  ∧ LWWElementGraph.ContainsVertex Tests.diamond 0 = Ok true
  ∧ LWWElementGraph.ContainsVertex Tests.diamond 1 = Ok true
  ∧ ∃ s, LWWElementGraph.edges Tests.diamond !! 0 = Some s
         ∧ LWWElementSet.Contains s 1 = Ok true.
Proof.
  split; [reflexivity|].
  apply (ContainsEdge_needs_vertices Tests.diamond 0 1). reflexivity.
Defined.

Lemma Merge_keeps_agreement_witness :
  LWWElementGraph.ContainsEdge Tests.diamond 0 1 = Ok true
  ∧ LWWElementGraph.ContainsEdge Tests.fork 0 1 = Ok true
  ∧ LWWElementGraph.ContainsEdge (LWWElementGraph.Merge Tests.diamond Tests.fork) 0 1
    = Ok true.
Proof.
  split_and!; [reflexivity..|].
  apply (proj1 (Merge_keeps_agreement Tests.diamond Tests.fork) 0 1); reflexivity.
Defined.

Lemma AllConnectedVertices_neighbours_witness :
  ∃ r, LWWElementGraph.AllConnectedVertices_along LWWElementGraph.in_map_order
         (map_to_list (LWWElementGraph.edges Tests.diamond)) Tests.diamond 3 = Ok r
       ∧ (∀ x, x ∈ r ↔ LWWElementGraph.ContainsEdge Tests.diamond 3 x = Ok true
                       ∨ LWWElementGraph.ContainsEdge Tests.diamond x 3 = Ok true)
       ∧ (∀ x, x ∈ r → LWWElementGraph.ContainsVertex Tests.diamond x = Ok true
                       ∧ LWWElementGraph.ContainsVertex Tests.diamond 3 = Ok true).
Proof.
  exact (AllConnectedVertices_neighbours LWWElementGraph.in_map_order
           in_map_order_enumerates _ Tests.diamond 3 (reflexivity _)).
Defined.

Lemma absent_vertex_is_isolated_witness :
  LWWElementGraph.ContainsVertex (LWWElementGraph.RemoveVertex Tests.diamond 2 8) 2
    = Ok false
  ∧ (∀ x, LWWElementGraph.ContainsEdge (LWWElementGraph.RemoveVertex Tests.diamond 2 8) 2 x
            = Ok false
          ∧ LWWElementGraph.ContainsEdge (LWWElementGraph.RemoveVertex Tests.diamond 2 8) x 2
            = Ok false)
  ∧ LWWElementGraph.AllConnectedVertices (LWWElementGraph.RemoveVertex Tests.diamond 2 8) 2
    = Ok ∅.
Proof.
  split; [reflexivity|].
  apply (proj1 (absent_vertex_is_isolated (LWWElementGraph.RemoveVertex Tests.diamond 2 8) 2)).
  reflexivity.
Defined.

Lemma AnyPath_answers_witness :
  ∃ r, LWWElementGraph.AnyPath 0 LWWElementGraph.in_map_order Tests.diamond 0 3 = Some r
    ∧ ∀ p, r = Ok p →
        (p = []
         ∧ (LWWElementGraph.ContainsVertex Tests.diamond 0 = Ok false
            ∨ LWWElementGraph.ContainsVertex Tests.diamond 3 = Ok false
            ∨ ∀ p', ¬ path Tests.diamond 0 3 p'))
        ∨ (LWWElementGraph.ContainsVertex Tests.diamond 0 = Ok true
           ∧ LWWElementGraph.ContainsVertex Tests.diamond 3 = Ok true
           ∧ path Tests.diamond 0 3 p
           ∧ head p = Some 0 ∧ last p = Some 3
           ∧ Forall (λ v, LWWElementGraph.ContainsVertex Tests.diamond v = Ok true) p
           ∧ ∀ p', path Tests.diamond 0 3 p' → (length p ≤ length p')%nat).
Proof.
  exact (AnyPath_answers 0 LWWElementGraph.in_map_order in_map_order_enumerates
           Tests.diamond 0 3).
Defined.

Lemma AnyPath_throws_only_without_edge_set_witness :
  ∃ p, LWWElementGraph.AnyPath 0 LWWElementGraph.in_map_order Tests.diamond 0 3
       = Some (Ok p).
Proof.
  apply (proj2 (AnyPath_throws_only_without_edge_set 0 LWWElementGraph.in_map_order
                  in_map_order_enumerates Tests.diamond 0 3)).
  exact diamond_edge_sets.
Defined.

Lemma AnyPath_without_path_witness :
  (LWWElementGraph.ContainsVertex Tests.two_vertices 0 = Ok true
   ∧ LWWElementGraph.ContainsVertex Tests.two_vertices 1 = Ok true)
  ∧ (LWWElementGraph.AnyPath 0 LWWElementGraph.in_map_order Tests.two_vertices 0 1
       = Some (Throw out_of_range)
     ↔ ∃ v p, path Tests.two_vertices 0 v p
              ∧ LWWElementGraph.edges Tests.two_vertices !! v = None)
  ∧ (LWWElementGraph.AnyPath 0 LWWElementGraph.in_map_order Tests.two_vertices 0 1
       = Some (Ok [])
     ↔ ∀ v p, path Tests.two_vertices 0 v p
              → is_Some (LWWElementGraph.edges Tests.two_vertices !! v)).
Proof.
  split; [split; reflexivity|].
  apply (AnyPath_without_path 0 LWWElementGraph.in_map_order in_map_order_enumerates
           Tests.two_vertices 0 1); [reflexivity..|].
  intros p Hp. apply two_vertices_no_path in Hp. lia.
Defined.

Lemma AnyPath_length_independent_witness :
  (LWWElementGraph.AnyPath 0 LWWElementGraph.in_map_order Tests.diamond 0 3
     = Some (Ok [0; 2; 3])
   ∧ LWWElementGraph.AnyPath 0 (λ _ m, reverse (map_to_list m)) Tests.diamond 0 3
     = Some (Ok [0; 1; 3]))
  ∧ length [0; 2; 3] = length [0; 1; 3].
Proof.
  split; [split; reflexivity|].
  apply (AnyPath_length_independent 0 LWWElementGraph.in_map_order
           (λ _ m, reverse (map_to_list m)) Tests.diamond 0 3);
    [exact in_map_order_enumerates|exact reverse_order_enumerates|reflexivity..].
Defined.

Lemma AnyPath_without_search_witness :
  LWWElementGraph.ContainsVertex (LWWElementGraph.RemoveVertex Tests.diamond 2 8) 2
    = Ok false
  ∧ LWWElementGraph.AnyPath 0 LWWElementGraph.in_map_order
      (LWWElementGraph.RemoveVertex Tests.diamond 2 8) 0 2 = Some (Ok []).
Proof.
  split; [reflexivity|].
  apply (proj1 (AnyPath_without_search 0 LWWElementGraph.in_map_order
                  (LWWElementGraph.RemoveVertex Tests.diamond 2 8)) 0 2).
  right. reflexivity.
Defined.

Lemma Merge_order_irrelevant_witness :
  LWWElementSet.Merge_along
    (reverse (map_to_list (LWWElementSet.add (LWWElementGraph.vertices Tests.readded))))
    (reverse (map_to_list (LWWElementSet.remove (LWWElementGraph.vertices Tests.readded))))
    (LWWElementGraph.vertices Tests.diamond)
  = LWWElementSet.Merge (LWWElementGraph.vertices Tests.diamond)
      (LWWElementGraph.vertices Tests.readded).
Proof.
  apply (proj1 Merge_order_irrelevant); apply reverse_Permutation.
Defined.

(** ** The large path test *)

Section large_path.
Import LWWElementSet LWWElementGraph Tests.

Lemma chain_vertices_S k :
  chain_vertices (S k) = AddVertex (chain_vertices k) (Z.of_nat k) (Z.of_nat k).
Proof. unfold chain_vertices. by rewrite seq_S, foldl_app. Qed.

Lemma chain_edges_S n k g :
  chain_edges n (S k) g
  = AddEdge (chain_edges n k g) (Z.of_nat k) (Z.of_nat k + 1) (Z.of_nat n + Z.of_nat k).
Proof. unfold chain_edges. by rewrite seq_S, foldl_app. Qed.

Lemma chain_vertices_lookup k :
  (∀ z, add (vertices (chain_vertices k)) !! z
        = if decide (0 ≤ z < Z.of_nat k) then Some z else None)
  ∧ remove (vertices (chain_vertices k)) = ∅
  ∧ edges (chain_vertices k) = ∅.
Proof.
  induction k as [|k (IHa & IHr & IHe)].
  - split_and!; try done. intros z. rewrite decide_False by lia. apply lookup_empty.
  - rewrite chain_vertices_S. unfold AddVertex. cbn [vertices edges].
    rewrite Add_upsert. cbn [add remove]. split_and!; try done.
    intros z. rewrite lookup_upsert, IHa.
    destruct (decide (Z.of_nat k = z)) as [<-|Hne].
    + repeat case_decide; try done; lia.
    + rewrite ?IHa. repeat case_decide; try done; lia.
Qed.

Lemma chain_edges_lookup n k g :
  edges g = ∅ →
  vertices (chain_edges n k g) = vertices g
  ∧ ∀ z, edges (chain_edges n k g) !! z
         = if decide (0 ≤ z < Z.of_nat k)
           then Some (LWWElementSet.mk {[z + 1 := Z.of_nat n + z]} ∅) else None.
Proof.
  intros Hg. induction k as [|k [IHv IHe]].
  - split; [done|]. intros z. rewrite decide_False by lia.
    unfold chain_edges. simpl. rewrite Hg. apply lookup_empty.
  - rewrite chain_edges_S. unfold AddEdge. cbn [vertices edges]. split; [done|].
    intros z. destruct (decide (Z.of_nat k = z)) as [<-|Hne].
    + rewrite lookup_insert_eq, decide_True by lia. f_equal.
      unfold subscript. rewrite IHe, decide_False by lia. simpl.
      rewrite Add_upsert. unfold upsert. simpl. by rewrite lookup_empty, insert_empty.
    + rewrite lookup_insert_ne, IHe by done. repeat case_decide; try done; lia.
Qed.

Lemma chain_lookup n :
  (∀ z, add (vertices (chain n)) !! z
        = if decide (0 ≤ z < Z.of_nat n) then Some z else None)
  ∧ remove (vertices (chain n)) = ∅
  ∧ ∀ z, edges (chain n) !! z
         = if decide (0 ≤ z < Z.of_nat (n - 1))
           then Some (LWWElementSet.mk {[z + 1 := Z.of_nat n + z]} ∅) else None.
Proof.
  destruct (chain_vertices_lookup n) as (Ha & Hr & He).
  destruct (chain_edges_lookup n (n - 1) (chain_vertices n) He) as [Hv He'].
  unfold chain. rewrite Hv. by split_and!.
Qed.

Lemma chain_ContainsVertex n z :
  0 ≤ z < Z.of_nat n → ContainsVertex (chain n) z = Ok true.
Proof.
  intros Hz. destruct (chain_lookup n) as (Ha & Hr & _).
  unfold ContainsVertex. rewrite Contains_present. f_equal. apply present_true.
  exists z. rewrite Ha, decide_True, Hr by done. split; [done|].
  intros r. by rewrite lookup_empty.
Qed.

(** The visible edges of the chain are the ones that were added. *)
Lemma chain_ContainsEdge n u v :
  ContainsEdge (chain n) u v = Ok true ↔ 0 ≤ u ∧ u + 1 < Z.of_nat n ∧ v = u + 1.
Proof.
  destruct (chain_lookup n) as (Ha & Hr & He).
  rewrite ContainsEdge_true, edge_valid_true. split.
  - intros (s & te & af & at' & Hs & Hte & _).
    rewrite He in Hs. case_decide; [|done]. injection Hs as <-. simpl in Hte.
    apply lookup_singleton_Some in Hte as [<- _]. lia.
  - intros (Hu & Hn & ->).
    exists (LWWElementSet.mk {[u + 1 := Z.of_nat n + u]} ∅), (Z.of_nat n + u), u, (u + 1).
    rewrite He, !Ha, Hr, !decide_True by lia. simpl.
    rewrite lookup_singleton_eq.
    split_and!; try done; try lia; intros r; by rewrite lookup_empty.
Qed.

(** The only paths of the chain are its segments. *)
Lemma chain_path_segment n u w p :
  path (chain n) u w p →
  ∀ i : nat, u = Z.of_nat i → (i < n)%nat →
  ∃ j : nat, (i + j < n)%nat ∧ w = Z.of_nat (i + j)
             ∧ p = Z.of_nat <$> seq i (S j).
Proof.
  induction 1 as [v|u v w p Hedge Hp IH]; intros i -> Hi.
  - exists 0%nat. split_and!; [lia|f_equal; lia|done].
  - apply chain_ContainsEdge in Hedge as (_ & Hn & ->).
    destruct (IH (S i)) as (j & Hj & -> & ->); [lia..|].
    exists (S j). split_and!; [lia|f_equal; lia|done].
Qed.

Lemma chain_segment_path n (j i : nat) :
  (i + j < n)%nat →
  path (chain n) (Z.of_nat i) (Z.of_nat (i + j)) (Z.of_nat <$> seq i (S j)).
Proof.
  revert i. induction j as [|j IH]; intros i Hij.
  - rewrite Nat.add_0_r. constructor.
  - change (Z.of_nat <$> seq i (S (S j)))
      with (Z.of_nat i :: (Z.of_nat <$> seq (S i) (S j))).
    apply path_edge with (Z.of_nat (S i)).
    + apply chain_ContainsEdge. lia.
    + replace (i + S j)%nat with (S i + j)%nat by lia. apply IH. lia.
Qed.

(** X23.  The large path test of [main.cpp], for every number [n > 0] of
    vertices and every visiting order: on the chain 0 → 1 → ... → n-1,
    [AnyPath(0, n - 1)] returns the whole chain.  It does not throw,
    although the last vertex has no edge set, because the search stops at
    [to] before expanding it. *)
Theorem AnyPath_chain (visit : Z → gmap Z Z → list (Z * Z)) (n : nat) :
  (∀ e (m : gmap Z Z), visit e m ≡ₚ map_to_list m) →
  (0 < n)%nat →
  edges (chain n) !! (Z.of_nat n - 1) = None
  ∧ AnyPath 0 visit (chain n) 0 (Z.of_nat n - 1) = Some (Ok (Z.of_nat <$> seq 0 n)).
Proof.
  intros Hvisit Hn. split.
  { destruct (chain_lookup n) as (_ & _ & He). rewrite He, decide_False; [done|lia]. }
  assert (Hto : Z.of_nat n - 1 = Z.of_nat (0 + (n - 1))) by lia.
  assert (Hf : ContainsVertex (chain n) 0 = Ok true) by (apply chain_ContainsVertex; lia).
  assert (Ht : ContainsVertex (chain n) (Z.of_nat n - 1) = Ok true)
    by (apply chain_ContainsVertex; lia).
  assert (Hchain : path (chain n) 0 (Z.of_nat n - 1) (Z.of_nat <$> seq 0 n)).
  { rewrite Hto. replace n with (S (n - 1)) at 3 by lia.
    apply (chain_segment_path n (n - 1) 0). lia. }
  destruct (AnyPath_correct 0 visit Hvisit (chain n) 0 (Z.of_nat n - 1))
    as (r & Hr & Hok & _).
  rewrite Hr. f_equal. destruct r as [p|[]].
  - f_equal.
    destruct (Hok p eq_refl) as [[-> [?|[?|Hno]]]|(_ & _ & Hp & _)]; try congruence.
    + by destruct (Hno _ Hchain).
    + destruct (chain_path_segment _ _ _ _ Hp 0%nat eq_refl Hn) as (j & Hj & Hw & ->).
      f_equal. f_equal. lia.
  - exfalso.
    assert (Hthrow : ∃ v p, path (chain n) 0 v p ∧ v ≠ Z.of_nat n - 1
                            ∧ edges (chain n) !! v = None).
    { revert Hr. unfold AnyPath, AnyPath_fuel. rewrite Hf, Ht. cbn -[bfs].
      apply (bfs_throw_reachable 0 visit Hvisit), search_inv_init. }
    destruct Hthrow as (v & p & Hp & Hne & Hnone).
    destruct (chain_path_segment _ _ _ _ Hp 0%nat eq_refl Hn) as (j & Hj & -> & _).
    destruct (chain_lookup n) as (_ & _ & He).
    rewrite He, decide_True in Hnone; [done|lia].
Qed.
End large_path.

Lemma AnyPath_chain_witness :
  LWWElementGraph.edges (Tests.chain 5) !! 4 = None
  ∧ LWWElementGraph.AnyPath 0 LWWElementGraph.in_map_order (Tests.chain 5) 0 4
    = Some (Ok [0; 1; 2; 3; 4]).
Proof.
  exact (AnyPath_chain LWWElementGraph.in_map_order 5 in_map_order_enumerates
           (Nat.lt_0_succ 4)).
Defined.
